(** * hpc-qc-mini-labs: the OpenMP mini labs

    A shallow embedding of the three programs under [labs/openmp/cpp]:

    - [omp_00_warmup.cpp]: every worker of one parallel region prints a
      greeting inside a critical section;
    - [omp_01_amdahl.cpp]: [serial_work] and [parallel_work], two
      accumulation loops, the second one a work-shared loop with a [+]
      reduction under [schedule(static)];
    - [omp_02_mutex_bottleneck.cpp]: a work-shared loop whose body sleeps,
      then sleeps again inside a critical section.

    Sequential code is embedded as functions.  A parallel region is embedded
    as an interleaving step relation over the program counters of its
    workers; [#pragma omp critical] is a lock, the end of a work-sharing
    construct is a barrier, and [sleep_for] is a wake-up time on a global
    clock that only moves forward. *)

From Stdlib Require Import ZArith Lia Reals Lra PrimFloat Uint63 Sorted.
From stdpp Require Import base tactics option list list_numbers strings pretty.

Set Default Proof Using "Type".
Local Open Scope Z_scope.

(** * The static schedule *)

Module Schedule.

(** Modelled from the spec: "static range partitioning (each worker gets a
    contiguous, roughly equal-sized subrange)".  The OpenMP runtime behind
    [schedule(static)] is not part of the sources.  For [n] iterations and
    [T] workers, the first [n mod T] workers get [n / T + 1] iterations
    and the others [n / T]; worker [t] starts where worker [t - 1]
    stops. *)
Definition chunk_len (n T t : nat) : nat :=
  (n / T + (if bool_decide (t < n mod T) then 1 else 0))%nat.

Definition chunk_lo (n T t : nat) : nat :=
  (t * (n / T) + t `min` (n mod T))%nat.

Definition chunk_hi (n T t : nat) : nat :=
  (chunk_lo n T t + chunk_len n T t)%nat.

(** The iterations of worker [t], in the order in which it runs them. *)
Definition chunk (n T t : nat) : list nat :=
  seq (chunk_lo n T t) (chunk_len n T t).

Lemma chunk_lo_0 n T : chunk_lo n T 0 = 0%nat.
Proof. unfold chunk_lo. lia. Qed.

Lemma chunk_hi_lo n T t : chunk_hi n T t = chunk_lo n T (S t).
Proof.
  unfold chunk_hi, chunk_lo, chunk_len.
  case_bool_decide; lia.
Qed.

Lemma chunk_lo_all n T : (1 ≤ T)%nat → chunk_lo n T T = n.
Proof.
  intros HT. unfold chunk_lo.
  pose proof (Nat.mod_upper_bound n T ltac:(lia)).
  pose proof (Nat.div_mod_eq n T).
  rewrite Nat.min_r by lia. lia.
Qed.

Lemma chunk_lo_mono n T t u : (t ≤ u)%nat → (chunk_lo n T t ≤ chunk_lo n T u)%nat.
Proof.
  induction 1 as [|u _ IH]; [done|].
  rewrite <-chunk_hi_lo. unfold chunk_hi. lia.
Qed.

Lemma chunk_lo_le n T t : (1 ≤ T)%nat → (t ≤ T)%nat → (chunk_lo n T t ≤ n)%nat.
Proof.
  intros HT Ht. rewrite <-(chunk_lo_all n T HT) at 2. by apply chunk_lo_mono.
Qed.

Lemma chunk_hi_le n T t : (t < T)%nat → (chunk_hi n T t ≤ n)%nat.
Proof. intros Ht. rewrite chunk_hi_lo. apply chunk_lo_le; lia. Qed.

(** Chunks of different workers do not overlap. *)
Lemma chunk_disjoint n T t u i :
  (chunk_lo n T t ≤ i < chunk_hi n T t)%nat →
  (chunk_lo n T u ≤ i < chunk_hi n T u)%nat →
  t = u.
Proof.
  intros Ht Hu. rewrite !chunk_hi_lo in *.
  destruct (Nat.lt_trichotomy t u) as [Hlt|[->|Hlt]]; [|done|].
  - pose proof (chunk_lo_mono n T (S t) u ltac:(lia)). lia.
  - pose proof (chunk_lo_mono n T (S u) t ltac:(lia)). lia.
Qed.

(** The chunks of workers [0 .. k-1], one after the other, are the
    iterations below the start of worker [k]. *)
Lemma chunks_prefix n T k :
  concat (chunk n T <$> seq 0 k) = seq 0 (chunk_lo n T k).
Proof.
  induction k as [|k IH]; [by rewrite chunk_lo_0|].
  rewrite seq_S, fmap_app, concat_app, IH. simpl. rewrite app_nil_r.
  rewrite <-chunk_hi_lo. unfold chunk, chunk_hi.
  by rewrite seq_app.
Qed.

Lemma chunks_cover n T :
  (1 ≤ T)%nat → concat (chunk n T <$> seq 0 T) = seq 0 n.
Proof. intros HT. by rewrite chunks_prefix, chunk_lo_all. Qed.

(** With nothing to do every chunk is empty, for any number of workers. *)
Lemma chunk_empty T t : chunk 0 T t = [].
Proof.
  unfold chunk, chunk_len. rewrite Nat.Div0.div_0_l, Nat.Div0.mod_0_l.
  by rewrite bool_decide_eq_false_2 by lia.
Qed.

(** Every iteration has a worker. *)
Lemma chunk_exists n T i :
  (1 ≤ T)%nat → (i < n)%nat →
  ∃ t, (t < T)%nat ∧ (chunk_lo n T t ≤ i < chunk_hi n T t)%nat.
Proof.
  intros HT Hi.
  assert (i ∈ concat (chunk n T <$> seq 0 T)) as Hin.
  { rewrite chunks_cover by done. apply elem_of_seq. lia. }
  apply list_elem_of_In, in_concat in Hin as (l & Hl & Hil).
  apply list_elem_of_In, list_elem_of_fmap in Hl as (t & -> & Ht).
  apply list_elem_of_In in Hil.
  apply elem_of_seq in Ht. apply elem_of_seq in Hil.
  exists t. unfold chunk_hi. lia.
Qed.

End Schedule.

(** * [omp_01_amdahl.cpp]: the two workload functions *)

Module Amdahl.
Import Schedule.

  (** ** The loops, over any carrier

      Both functions have the shape [s = 0; for (i = 0; i < n; i++) s += term(i)].
      The carrier [A], its [zero] and [add], and the summand [term] are left
      open: the program runs them on [double]; the same definitions run on
      the real numbers (exact arithmetic) and on lists of indices (the trace
      of the iterations a run performs). *)
Section Accumulate.
Context {A : Type} (zero : A) (add : A → A → A) (term : Z → A).

(** [for (int i = lo; i < hi; i++) s += term(i);] started with the
    accumulator [s].  The result is [None] when [fuel] runs out before
    the guard [i < hi] fails. *)
Fixpoint for_loop (fuel : nat) (i hi : Z) (s : A) : option A :=
  match fuel with
  | O => None
  | S fuel' =>
      if bool_decide (i < hi)
      then for_loop fuel' (i + 1) hi (add s (term i))
      else Some s
  end.

Definition loop_fuel (lo hi : Z) : nat := S (Z.to_nat (hi - lo)).

Definition accumulate (lo hi : Z) : option A :=
  for_loop (loop_fuel lo hi) lo hi zero.

(** The loop of [serial_work]: one thread, [i = 0, 1, ..., n - 1]. *)
Definition serial_acc (n : Z) : option A := accumulate 0 n.

(** Inside [#pragma omp parallel for reduction(+:s) schedule(static)]
    worker [t] of [T] runs its chunk of the [n] iterations on a private
    copy of [s] that starts at [zero]. *)
Definition private_sum (n : Z) (T t : nat) : option A :=
  let count := Z.to_nat n in
  accumulate (Z.of_nat (chunk_lo count T t)) (Z.of_nat (chunk_hi count T t)).

(** The whole construct: the shared [s], which is [zero] when the loop is
    reached, is combined with the private copies one after the other, in
    the order [order] in which the workers arrive at the end. *)
Definition parallel_acc (T : nat) (order : list nat) (n : Z) : option A :=
  ps ← mapM (private_sum n T) order;
  Some (fold_left add ps zero).

(** What the loops are compared with: a left fold over a list of
    indices. *)
Definition fold_terms (l : list Z) (s : A) : A :=
  fold_left (λ acc i, add acc (term i)) l s.

Definition ascending (lo hi : Z) : list Z := seqZ lo (hi - lo).

Lemma for_loop_fold fuel i hi s :
  (Z.to_nat (hi - i) < fuel)%nat →
  for_loop fuel i hi s = Some (fold_terms (ascending i hi) s).
Proof.
  revert i s. induction fuel as [|fuel IH]; intros i s Hf; [lia|].
  simpl. unfold ascending. case_bool_decide as Hi.
  - rewrite IH by lia. rewrite (seqZ_cons i) by lia.
    unfold ascending. simpl. do 3 f_equal. lia.
  - by rewrite seqZ_nil by lia.
Qed.

Lemma accumulate_fold lo hi :
  accumulate lo hi = Some (fold_terms (ascending lo hi) zero).
Proof. apply for_loop_fold. unfold loop_fuel. lia. Qed.

Lemma ascending_of_nat lo len :
  ascending (Z.of_nat lo) (Z.of_nat (lo + len)) = Z.of_nat <$> seq lo len.
Proof.
  unfold ascending. revert lo. induction len as [|len IH]; intros lo.
  - by rewrite seqZ_nil by lia.
  - rewrite seqZ_cons by lia. simpl. f_equal.
    rewrite <-IH. f_equal; lia.
Qed.

Lemma private_sum_fold n T t :
  private_sum n T t =
  Some (fold_terms (Z.of_nat <$> chunk (Z.to_nat n) T t) zero).
Proof.
  unfold private_sum, chunk, chunk_hi. cbv zeta.
  by rewrite accumulate_fold, ascending_of_nat.
Qed.

Lemma parallel_acc_fold T order n :
  parallel_acc T order n =
  Some (fold_left add
          ((λ t, fold_terms (Z.of_nat <$> chunk (Z.to_nat n) T t) zero)
             <$> order) zero).
Proof.
  unfold parallel_acc.
  rewrite (mapM_ext _ (λ t, Some (fold_terms
             (Z.of_nat <$> chunk (Z.to_nat n) T t) zero)))
    by apply private_sum_fold.
  assert (∀ g : nat → A, mapM (λ t, Some (g t)) order = Some (g <$> order))
    as ->; [|done].
  intros g. induction order as [|t order IH]; [done|].
  simpl. by rewrite IH.
Qed.

Lemma fold_terms_app l1 l2 s :
  fold_terms (l1 ++ l2) s = fold_terms l2 (fold_terms l1 s).
Proof. apply fold_left_app. Qed.

Lemma concat_fmap_chunks {B C} (f : B → C) (h : nat → list B) ts :
  concat ((λ t, f <$> h t) <$> ts) = f <$> concat (h <$> ts).
Proof.
  induction ts as [|t ts IH]; [done|].
  csimpl. by rewrite IH, fmap_app.
Qed.

(** *** Exact arithmetic: [add] is associative and commutative and
    [zero] is neutral *)
Section Monoid.
Hypothesis add_assoc : ∀ x y z, add x (add y z) = add (add x y) z.
Hypothesis add_comm : ∀ x y, add x y = add y x.
Hypothesis add_zero_l : ∀ x, add zero x = x.

Lemma fold_terms_shift l s :
  fold_terms l s = add s (fold_terms l zero).
Proof using add_assoc add_comm add_zero_l.
  revert s. induction l as [|i l IH]; intros s; simpl.
  - by rewrite add_comm, add_zero_l.
  - rewrite IH, (IH (add zero _)), add_zero_l. by rewrite add_assoc.
Qed.

Lemma fold_left_add_perm (l l' : list A) :
  l ≡ₚ l' → ∀ s, fold_left add l s = fold_left add l' s.
Proof using add_assoc add_comm.
  induction 1 as [|x l l' _ IH|x y l|l l' l'' _ IH1 _ IH2];
    intros s; simpl.
  - done.
  - apply IH.
  - f_equal. by rewrite <-!add_assoc, (add_comm y x).
  - by rewrite IH1.
Qed.

Lemma fold_left_add_chunks {B} (h : B → list Z) (ts : list B) s :
  fold_left add ((λ t, fold_terms (h t) zero) <$> ts) s =
  fold_terms (concat (h <$> ts)) s.
Proof using add_assoc add_comm add_zero_l.
  revert s. induction ts as [|t ts IH]; intros s; csimpl; [done|].
  by rewrite IH, fold_terms_app, <-fold_terms_shift.
Qed.

End Monoid.
End Accumulate.

(** ** Any split of the range

    [schedule(static)] without a chunk size gives every worker one
    subrange, the subranges following one another in the order of the
    workers; how long each one is, is the runtime's choice.  The construct
    is given here for any such split: worker [t] runs the indices
    [cut t <= i < cut (S t)]. *)
Section Split.
Context {A : Type} (zero : A) (add : A → A → A) (term : Z → A).

Definition private_sum_on (cut : nat → Z) (t : nat) : option A :=
  accumulate zero add term (cut t) (cut (S t)).

Definition parallel_acc_on (cut : nat → Z) (order : list nat) : option A :=
  ps ← mapM (private_sum_on cut) order;
  Some (fold_left add ps zero).

(** The cut points of the static schedule of [Schedule]. *)
Definition static_cut (n : Z) (T t : nat) : Z :=
  Z.of_nat (chunk_lo (Z.to_nat n) T t).

(** [cut] splits the indices [0 <= i < n] among [T] workers. *)
Definition splits (cut : nat → Z) (T : nat) (n : Z) : Prop :=
  cut 0%nat = 0 ∧ cut T = Z.max 0 n ∧ ∀ t, (t < T)%nat → cut t ≤ cut (S t).

Lemma parallel_acc_static T order n :
  parallel_acc zero add term T order n = parallel_acc_on (static_cut n T) order.
Proof.
  unfold parallel_acc, parallel_acc_on.
  rewrite (mapM_ext _ (private_sum_on (static_cut n T))); [done|].
  intros t. unfold private_sum, private_sum_on, static_cut. cbv zeta.
  by rewrite chunk_hi_lo.
Qed.

Lemma static_cut_splits n T : (1 ≤ T)%nat → splits (static_cut n T) T n.
Proof.
  intros HT. unfold splits, static_cut. split_and!.
  - by rewrite chunk_lo_0.
  - rewrite chunk_lo_all by done. lia.
  - intros t _. apply inj_le, chunk_lo_mono. lia.
Qed.

Lemma parallel_acc_on_fold cut order :
  parallel_acc_on cut order =
  Some (fold_left add
          ((λ t, fold_terms add term (ascending (cut t) (cut (S t))) zero)
             <$> order) zero).
Proof.
  unfold parallel_acc_on.
  rewrite (mapM_ext _ (λ t, Some (fold_terms add term
             (ascending (cut t) (cut (S t))) zero)))
    by (intros t; apply accumulate_fold).
  assert (∀ g : nat → A, mapM (λ t, Some (g t)) order = Some (g <$> order))
    as ->; [|done].
  intros g. induction order as [|t order IH]; [done|].
  simpl. by rewrite IH.
Qed.

Lemma ascending_app lo mid hi :
  lo ≤ mid → mid ≤ hi → ascending lo mid ++ ascending mid hi = ascending lo hi.
Proof.
  intros H1 H2. unfold ascending.
  replace (hi - lo) with ((mid - lo) + (hi - mid)) by lia.
  rewrite seqZ_app by lia. do 2 f_equal. lia.
Qed.

(** The subranges of a split, one after the other, are the whole range. *)
Lemma concat_cuts (cut : nat → Z) T :
  (∀ t, (t < T)%nat → cut t ≤ cut (S t)) →
  cut 0%nat ≤ cut T ∧
  concat ((λ t, ascending (cut t) (cut (S t))) <$> seq 0 T)
  = ascending (cut 0%nat) (cut T).
Proof.
  induction T as [|T IH]; intros Hmono.
  - split; [done|]. unfold ascending. by rewrite seqZ_nil by lia.
  - destruct IH as [Hle Hcat]; [intros t Ht; apply Hmono; lia|].
    pose proof (Hmono T ltac:(lia)) as Hlast. split; [lia|].
    rewrite seq_S, fmap_app, concat_app, Hcat. simpl.
    rewrite app_nil_r. by apply ascending_app.
Qed.

Section SplitMonoid.
Hypothesis add_assoc : ∀ x y z, add x (add y z) = add (add x y) z.
Hypothesis add_comm : ∀ x y, add x y = add y x.
Hypothesis add_zero_l : ∀ x, add zero x = x.

(** In exact arithmetic the reduction is the sum over the whole range,
    however the range is split and in whatever order the workers arrive. *)
Lemma parallel_acc_on_exact cut T order n :
  splits cut T n → order ≡ₚ seq 0 T →
  parallel_acc_on cut order = Some (fold_terms add term (ascending 0 n) zero).
Proof using add_assoc add_comm add_zero_l.
  intros (H0 & HT & Hmono) Hperm. rewrite parallel_acc_on_fold. f_equal.
  rewrite (fold_left_add_perm add add_assoc add_comm _
             ((λ t, fold_terms add term (ascending (cut t) (cut (S t))) zero)
                <$> seq 0 T)) by (by apply fmap_Permutation).
  rewrite (fold_left_add_chunks zero add term add_assoc add_comm add_zero_l
             (λ t, ascending (cut t) (cut (S t)))).
  destruct (concat_cuts cut T Hmono) as [_ ->]. rewrite H0, HT.
  f_equal. unfold ascending, seqZ. do 2 f_equal. lia.
Qed.
End SplitMonoid.
End Split.

(** ** The program: [double] arithmetic

    [std::sin] and [std::cos] come from the C library and are taken as
    parameters.  A loop index is converted to [double] before it is
    multiplied; the indices a loop visits are never negative. *)
Section Double.
Variables std_sin std_cos : float → float.

Definition double_of_int (i : Z) : float := PrimFloat.of_uint63 (Uint63.of_Z i).

(** The literal [1e-6]: the nearest [double]. *)
Definition micro : float := 0x1.0c6f7a0b5ed8dp-20%float.

Definition sin_term (i : Z) : float :=
  std_sin (PrimFloat.mul (double_of_int i) micro).

Definition cos_term (i : Z) : float :=
  std_cos (PrimFloat.mul (double_of_int i) micro).

(** [static double serial_work(int n)] *)
Definition serial_work (n : Z) : option float :=
  serial_acc PrimFloat.zero PrimFloat.add sin_term n.

(** [static double parallel_work(int n)], run by [T] workers that reach the
    end of the loop in the order [order]. *)
Definition parallel_work (T : nat) (order : list nat) (n : Z) : option float :=
  parallel_acc PrimFloat.zero PrimFloat.add cos_term T order n.

Definition Nserial : Z := 50000000.
Definition Npar : Z := 250000000.

(** What [main] prints, the wall time apart: [threads], [a] and [b]. *)
Record amdahl_output := AmdahlOutput {
  out_threads : nat;
  out_a : float;
  out_b : float
}.

Definition amdahl_main (T : nat) (order : list nat) : option amdahl_output :=
  a ← serial_work Nserial;
  b ← parallel_work T order Npar;
  Some (AmdahlOutput T a b).

(** What [serial_work] is compared with: the terms [sin(i * 1e-6)] added to
    [0.0] one by one, for [i] from [0] up to [n - 1]. *)
Definition serial_sum (n : Z) : float :=
  fold_left (λ s i, PrimFloat.add s (sin_term i)) (ascending 0 n) PrimFloat.zero.

End Double.

(** ** Exact arithmetic: the same loops over the real numbers *)

Definition cos_term_exact (i : Z) : R := Rtrigo_def.cos (IZR i * 1e-6)%R.

Definition parallel_work_exact (T : nat) (order : list nat) (n : Z) : option R :=
  parallel_acc 0%R Rplus cos_term_exact T order n.

(** The same construct over the real numbers for any split of the range. *)
Definition parallel_work_exact_on (cut : nat → Z) (order : list nat) : option R :=
  parallel_acc_on 0%R Rplus cos_term_exact cut order.

(** A split of five indices: the first worker takes four of them, the
    second one. *)
Definition uneven_cut (t : nat) : Z :=
  match t with O => 0 | S O => 4 | _ => 5 end.

(** ** What the two functions are to compute

    Written from the description of the functions, not from their loops,
    and compared with the loops below.  [cosine_series k] is the sum of
    [cos(i * 1e-6)] over [0 <= i < k] in the real numbers. *)
Fixpoint cosine_series (k : nat) : R :=
  match k with
  | O => 0%R
  | S k' => (cosine_series k' + Rtrigo_def.cos (INR k' / 1000000))%R
  end.

(** The [double] nearest to one millionth: the quotient of [1.0] by
    [1000000.0], rounded once. *)
Definition one_millionth : float :=
  PrimFloat.div (PrimFloat.of_uint63 1%uint63) (PrimFloat.of_uint63 1000000%uint63).

(** [sine_accumulation std_sin k] adds [sin(i * 1e-6)], in [double], for
    [i = 0, 1, ..., k - 1], one term after the other in this order. *)
Fixpoint sine_accumulation (std_sin : float → float) (k : nat) : float :=
  match k with
  | O => PrimFloat.zero
  | S k' =>
      PrimFloat.add (sine_accumulation std_sin k')
        (std_sin (PrimFloat.mul (PrimFloat.of_uint63 (Uint63.of_Z (Z.of_nat k')))
                                one_millionth))
  end.

(** ** The trace of a run: the same loops over lists of indices *)

Definition serial_work_trace (n : Z) : option (list Z) :=
  serial_acc [] app (λ i, [i]) n.

Definition parallel_work_trace (T : nat) (order : list nat) (n : Z)
  : option (list Z) :=
  parallel_acc [] app (λ i, [i]) T order n.

(** Rounding makes the [double] result depend on how the range is split:
    with the summands 0.1, 0, 0.2 and 0.3 in place of the four cosines, one
    worker returns [(0.1 + 0.2) + 0.3] and two workers [0.1 + (0.2 + 0.3)],
    which differ in the last bit.  This is why equality of the results is
    stated over exact arithmetic only. *)
Definition tenths (k : Z) : float :=
  PrimFloat.div (double_of_int k) (double_of_int 10).

Definition stand_in (x : float) : float :=
  if PrimFloat.ltb x (PrimFloat.mul (tenths 5) micro) then tenths 1
  else if PrimFloat.ltb x (PrimFloat.mul (tenths 15) micro) then PrimFloat.zero
  else if PrimFloat.ltb x (PrimFloat.mul (tenths 25) micro) then tenths 2
  else tenths 3.

Remark parallel_work_double_rounding :
  parallel_work stand_in 2 [0; 1]%nat 4 ≠ parallel_work stand_in 1 [0%nat] 4.
Proof.
  intros Heq.
  apply (f_equal (λ r, PrimFloat.ltb (default PrimFloat.zero r)
                         (PrimFloat.add (PrimFloat.add (tenths 1) (tenths 2))
                                        (tenths 3)))) in Heq.
  vm_compute in Heq. discriminate.
Qed.

(** How far apart the two results are is not decided by the loops but by
    the values the library function returns: with the summands 1, 2^-53,
    2^-53 and -1 in place of the four cosines, one worker returns
    [((1 + 2^-53) + 2^-53) - 1 = 0] and two workers
    [(1 + 2^-53) + (2^-53 - 1) = 2^-53]. *)
Definition cancelling (x : float) : float :=
  if PrimFloat.ltb x (PrimFloat.mul (tenths 5) micro) then 1%float
  else if PrimFloat.ltb x (PrimFloat.mul (tenths 25) micro) then 0x1p-53%float
  else (-1)%float.

Remark parallel_work_double_cancellation :
  parallel_work cancelling 1 [0%nat] 4 = Some 0%float ∧
  parallel_work cancelling 2 [0; 1]%nat 4 = Some 0x1p-53%float.
Proof. split; vm_compute; reflexivity. Qed.

Lemma serial_work_fold std_sin n :
  serial_work std_sin n = Some (serial_sum std_sin n).
Proof. apply accumulate_fold. Qed.

Lemma parallel_work_terminates std_cos T order n :
  is_Some (parallel_work std_cos T order n).
Proof. unfold parallel_work. by rewrite parallel_acc_fold. Qed.

Lemma fold_zeros (order : list nat) :
  fold_left PrimFloat.add ((λ _, PrimFloat.zero) <$> order) PrimFloat.zero
  = PrimFloat.zero.
Proof. induction order as [|t order IH]; [done|]. csimpl. apply IH. Qed.

Lemma trace_fold (l s : list Z) : fold_terms app (λ i, [i]) l s = s ++ l.
Proof.
  revert s. induction l as [|i l IH]; intros s; simpl.
  - by rewrite app_nil_r.
  - by rewrite IH, <-app_assoc.
Qed.

Lemma serial_work_trace_ascending n :
  serial_work_trace n = Some (ascending 0 n).
Proof.
  unfold serial_work_trace, serial_acc.
  by rewrite accumulate_fold, trace_fold.
Qed.

Lemma ascending_sorted lo hi : StronglySorted Z.lt (ascending lo hi).
Proof.
  unfold ascending.
  destruct (decide (hi - lo ≤ 0)) as [Hle|Hgt].
  { rewrite seqZ_nil by done. constructor. }
  rewrite <-(Z2Nat.id (hi - lo)) by lia.
  generalize (Z.to_nat (hi - lo)) as k. clear Hgt. intros k. revert lo.
  induction k as [|k IH]; intros lo.
  - rewrite seqZ_nil by done. constructor.
  - rewrite seqZ_cons by lia. constructor.
    + replace (Z.pred (Z.of_nat (S k))) with (Z.of_nat k) by lia. apply IH.
    + apply Forall_seqZ. lia.
Qed.

Lemma fold_left_app_concat (ls : list (list Z)) s :
  fold_left app ls s = s ++ concat ls.
Proof.
  revert s. induction ls as [|l ls IH]; intros s; simpl.
  - by rewrite app_nil_r.
  - by rewrite IH, <-app_assoc.
Qed.

Lemma concat_fmap_perm {B C} (h : B → list C) (l l' : list B) :
  l ≡ₚ l' → concat (h <$> l) ≡ₚ concat (h <$> l').
Proof.
  induction 1 as [|x l l' _ IH|x y l|l l' l'' _ IH1 _ IH2]; csimpl.
  - done.
  - by rewrite IH.
  - rewrite !app_assoc. f_equiv. apply Permutation_app_comm.
  - by rewrite IH1.
Qed.

Lemma parallel_work_trace_perm T order n :
  (1 ≤ T)%nat → order ≡ₚ seq 0 T →
  ∃ tr, parallel_work_trace T order n = Some tr ∧ tr ≡ₚ ascending 0 n.
Proof.
  intros HT Hperm. unfold parallel_work_trace. rewrite parallel_acc_fold.
  eexists; split; [done|].
  rewrite fold_left_app_concat. simpl.
  rewrite (list_fmap_ext _ (λ t, Z.of_nat <$> chunk (Z.to_nat n) T t) order)
    by (intros; by rewrite trace_fold).
  rewrite (concat_fmap_perm _ _ _ Hperm).
  rewrite concat_fmap_chunks, chunks_cover by done.
  rewrite <-(ascending_of_nat 0).
  unfold ascending, seqZ.
  replace (Z.to_nat (Z.of_nat (0 + Z.to_nat n) - Z.of_nat 0)) with (Z.to_nat (n - 0)) by lia.
  done.
Qed.

Lemma micro_one_millionth : micro = one_millionth.
Proof. vm_compute. reflexivity. Qed.

(** The loop of [serial_work] computes the accumulation of the sines. *)
Lemma serial_sum_spec std_sin n :
  serial_sum std_sin n = sine_accumulation std_sin (Z.to_nat n).
Proof.
  unfold serial_sum, ascending, seqZ. rewrite Z.sub_0_r.
  induction (Z.to_nat n) as [|k IH]; [done|].
  rewrite seq_S, !fmap_app, fold_left_app, IH. simpl.
  unfold sin_term, double_of_int. rewrite micro_one_millionth.
  by rewrite Z.add_0_r.
Qed.

Lemma cos_term_exact_spec (k : nat) :
  cos_term_exact (Z.of_nat k) = Rtrigo_def.cos (INR k / 1000000).
Proof. unfold cos_term_exact. f_equal. rewrite <-INR_IZR_INZ. lra. Qed.

Lemma cos_sum_fold k :
  fold_terms Rplus cos_term_exact (ascending 0 (Z.of_nat k)) 0%R
  = cosine_series k.
Proof.
  induction k as [|k IH]; [done|].
  unfold ascending in *. rewrite Z.sub_0_r in *.
  rewrite seqZ_S, fold_terms_app, IH. simpl.
  by rewrite Z.add_0_l, cos_term_exact_spec.
Qed.

Lemma parallel_work_exact_on_sum cut T order n :
  splits cut T n → order ≡ₚ seq 0 T →
  parallel_work_exact_on cut order = Some (cosine_series (Z.to_nat n)).
Proof.
  intros Hcut Hperm. unfold parallel_work_exact_on.
  rewrite (parallel_acc_on_exact 0%R Rplus cos_term_exact) with (T := T) (n := n);
    try done.
  - rewrite <-cos_sum_fold. do 2 f_equal.
    unfold ascending, seqZ. do 2 f_equal. lia.
  - intros. symmetry. apply Rplus_assoc.
  - apply Rplus_comm.
  - apply Rplus_0_l.
Qed.

(** The indices a loop over [0 <= i < n] visits, for [n] an [int]: the
    counter can be incremented without overflow and it is converted to
    [double] from the value it has. *)
Definition INT_MAX : Z := 2147483647.

Definition index_ok (n i : Z) : Prop :=
  0 ≤ i < n ∧ i + 1 ≤ INT_MAX ∧ Uint63.to_Z (Uint63.of_Z i) = i.

Lemma ascending_index_ok n : n ≤ INT_MAX → Forall (index_ok n) (ascending 0 n).
Proof.
  intros Hn. apply Forall_seqZ. intros i Hi. unfold index_ok, INT_MAX in *.
  split_and!; [lia|lia|lia|].
  rewrite Uint63.of_Z_spec. apply Z.mod_small.
  change Uint63Axioms.wB with 9223372036854775808. lia.
Qed.

End Amdahl.

(** * Lists of workers *)
Module Team.
Section Positions.
Context {A : Type} (P : option A → Prop) `{!∀ o, Decision (P o)}.

(** The workers of the team [ps] whose program counter satisfies [P]. *)
Definition positions (ps : list A) : list nat :=
  filter (λ w, P (ps !! w)) (seq 0 (length ps)).

Lemma elem_of_positions ps w : w ∈ positions ps ↔ P (ps !! w) ∧ (w < length ps)%nat.
Proof.
  unfold positions. rewrite list_elem_of_filter, elem_of_seq. intuition lia.
Qed.

Lemma NoDup_positions ps : NoDup (positions ps).
Proof. apply NoDup_filter, NoDup_seq. Qed.

Lemma positions_insert_same ps w q :
  (P (ps !! w) ↔ P (Some q)) → (w < length ps)%nat →
  positions (<[w:=q]> ps) ≡ₚ positions ps.
Proof.
  intros HP Hw. apply NoDup_Permutation; try apply NoDup_positions.
  intros v. rewrite !elem_of_positions, length_insert.
  destruct (decide (v = w)) as [->|Hne].
  - rewrite list_lookup_insert_eq by done. tauto.
  - rewrite list_lookup_insert_ne by done. tauto.
Qed.

Lemma positions_insert_new ps w q :
  ¬ P (ps !! w) → P (Some q) → (w < length ps)%nat →
  positions (<[w:=q]> ps) ≡ₚ positions ps ++ [w].
Proof.
  intros Hn Hq Hw. apply NoDup_Permutation.
  - apply NoDup_positions.
  - apply NoDup_app. split_and!; [apply NoDup_positions| |apply NoDup_singleton].
    intros v Hv ->%list_elem_of_singleton. apply elem_of_positions in Hv. tauto.
  - intros v. rewrite elem_of_app, list_elem_of_singleton, !elem_of_positions, length_insert.
    destruct (decide (v = w)) as [->|Hne].
    + rewrite list_lookup_insert_eq by done. tauto.
    + rewrite list_lookup_insert_ne by done. tauto.
Qed.

Lemma positions_all ps :
  (∀ w, (w < length ps)%nat → P (ps !! w)) → positions ps ≡ₚ seq 0 (length ps).
Proof.
  intros Hall. apply NoDup_Permutation; [apply NoDup_positions|apply NoDup_seq|].
  intros v. rewrite elem_of_positions, elem_of_seq.
  split; [lia|]. intros [_ Hv]. split; [apply Hall|]; lia.
Qed.
End Positions.

(** A sum over the team, and what one update does to it. *)
Lemma sum_insert {A} (f : A → nat) (ps : list A) w p q :
  ps !! w = Some p →
  (sum_list (f <$> <[w:=q]> ps) + f p = sum_list (f <$> ps) + f q)%nat.
Proof.
  revert w. induction ps as [|x ps IH]; intros [|w] Hw; simplify_eq/=; [lia|].
  specialize (IH w Hw). lia.
Qed.

(** Case analysis on whether [v] is the worker [w] that has just moved. *)
Ltac at_worker v w :=
  destruct (decide (v = w)) as [->|?];
  [rewrite list_lookup_insert_eq by done
  |rewrite list_lookup_insert_ne by done].

Lemma sum_imap_insert {A} (f : nat → A → nat) (ps : list A) w p q :
  ps !! w = Some p →
  (sum_list (imap f (<[w:=q]> ps)) + f w p = sum_list (imap f ps) + f w q)%nat.
Proof.
  revert f w. induction ps as [|x ps IH]; intros f [|w] Hw; simplify_eq/=; [lia|].
  specialize (IH (f ∘ S) w Hw). simpl in IH. lia.
Qed.
End Team.

(** * [omp_00_warmup.cpp] *)
Module Warmup.
Import Team.

(** Where a worker stands inside the block of [#pragma omp parallel]. *)
Inductive pc : Type :=
| Start                   (* before [omp_get_thread_num()] *)
| Waiting (tid nt : Z)    (* [tid] and [nt] read; at [#pragma omp critical] *)
| Printing (tid nt : Z)   (* inside the critical section, before [printf] *)
| Leaving                 (* [printf] done, still inside the critical section *)
| Done.                   (* at the end of the block *)

Global Instance pc_eq_dec : EqDecision pc.
Proof. solve_decision. Defined.

Record state := State {
  pcs : list pc;          (* one program counter per worker of the team *)
  lock : option nat;      (* the worker inside the critical section *)
  out : list string       (* the lines written to [stdout] so far *)
}.

Definition newline : string := String (Ascii.ascii_of_nat 10) EmptyString.

(** [printf("Hello from thread %d of %d\n", tid, nt)] *)
Definition hello_line (tid nt : Z) : string :=
  "Hello from thread " +:+ (pretty tid +:+ (" of " +:+ (pretty nt +:+ newline))).

Example hello_line_2_of_4 :
  hello_line 2 4 = "Hello from thread 2 of 4" +:+ newline.
Proof. reflexivity. Qed.

(** One step of worker [w]; [None] when the worker cannot move.
    [omp_get_thread_num()] is the position of the worker in the team and
    [omp_get_num_threads()] the size of the team. *)
Definition worker_step (w : nat) (σ : state) : option state :=
  p ← pcs σ !! w;
  match p with
  | Start =>
      let tid := Z.of_nat w in
      let nt := Z.of_nat (length (pcs σ)) in
      Some (State (<[w := Waiting tid nt]> (pcs σ)) (lock σ) (out σ))
  | Waiting tid nt =>
      match lock σ with
      | None => Some (State (<[w := Printing tid nt]> (pcs σ)) (Some w) (out σ))
      | Some _ => None
      end
  | Printing tid nt =>
      Some (State (<[w := Leaving]> (pcs σ)) (lock σ) (out σ ++ [hello_line tid nt]))
  | Leaving => Some (State (<[w := Done]> (pcs σ)) None (out σ))
  | Done => None
  end.

(** The team of [T] workers at the start of the region. *)
Definition init (T : nat) : state := State (replicate T Start) None [].

(** An interleaving: the workers that move, in order. *)
Fixpoint run (sched : list nat) (σ : state) : option state :=
  match sched with
  | [] => Some σ
  | w :: sched' => σ' ← worker_step w σ; run sched' σ'
  end.

Definition reachable (T : nat) (σ : state) : Prop :=
  ∃ sched, run sched (init T) = Some σ.

(** All workers are at the end of the region: the team can join. *)
Definition finished (σ : state) : Prop := Forall (λ p, p = Done) (pcs σ).

(** A run of two workers: worker 1 reaches the critical section while
    worker 0 is inside. *)
Definition sample_run : list nat := [0; 0; 1; 0; 0; 1; 1; 1]%nat.

Definition sample_final : state :=
  Eval vm_compute in default (init 2) (run sample_run (init 2)).

Definition in_critical (o : option pc) : Prop :=
  match o with
  | Some (Printing _ _) | Some Leaving => True
  | _ => False
  end.

Definition has_printed (o : option pc) : Prop :=
  o = Some Leaving ∨ o = Some Done.

Global Instance has_printed_dec o : Decision (has_printed o).
Proof. unfold has_printed. apply _. Defined.

Definition remaining (p : pc) : nat :=
  match p with
  | Start => 4 | Waiting _ _ => 3 | Printing _ _ => 2 | Leaving => 1 | Done => 0
  end.

Definition measure (σ : state) : nat := sum_list (remaining <$> pcs σ).

Definition line_of (T : nat) (w : nat) : string :=
  hello_line (Z.of_nat w) (Z.of_nat T).

Record Inv (T : nat) (σ : state) : Prop := {
  inv_team : length (pcs σ) = T;
  inv_locals : ∀ w tid nt,
    pcs σ !! w = Some (Waiting tid nt) ∨ pcs σ !! w = Some (Printing tid nt) →
    tid = Z.of_nat w ∧ nt = Z.of_nat T;
  inv_lock : ∀ w, lock σ = Some w ↔ in_critical (pcs σ !! w);
  inv_out : out σ ≡ₚ line_of T <$> positions has_printed (pcs σ)
}.

Lemma probe_Inv_init T : Inv T (init T).
Proof.
  split; simpl.
  - apply length_replicate.
  - intros w tid nt [H|H]; by apply lookup_replicate in H as [? _].
  - intros w. split; [done|].
    destruct (replicate T Start !! w) as [p|] eqn:E; [|done].
    apply lookup_replicate in E as [-> _]. done.
  - replace (positions has_printed (replicate T Start)) with (@nil nat); [done|].
    symmetry. apply Permutation_nil_r.
    apply NoDup_Permutation; [apply NoDup_positions|apply NoDup_nil_2|].
    intros v. rewrite elem_of_positions. split; [|by intros ?%elem_of_nil].
    intros [[H|H] _]; by apply lookup_replicate in H as [? _].
Qed.

Lemma probe_Inv_step T w σ σ' : Inv T σ → worker_step w σ = Some σ' → Inv T σ'.
Proof.
  intros [Hteam Hloc Hlock Hout]. unfold worker_step.
  destruct (pcs σ !! w) as [p|] eqn:Hw; [|done]. simpl.
  assert (w < length (pcs σ))%nat as Hlt by (by eapply lookup_lt_Some).
  pose proof (Hlock w) as Hlw. rewrite Hw in Hlw.
  assert (∀ q, (has_printed (Some p) ↔ has_printed (Some q)) →
               out σ ≡ₚ line_of T <$> positions has_printed (<[w:=q]> (pcs σ)))
    as Hsame.
  { intros q Hq. rewrite positions_insert_same; [done|by rewrite Hw|done]. }
  destruct p as [|tid nt|tid nt| |]; [|destruct (lock σ) eqn:Hl; [done|]|..];
    intros ?; simplify_eq; split; simpl; rewrite ?length_insert; try done.
  - (* the locals are read *)
    intros v tid' nt'. at_worker v w; [|apply Hloc].
    by intros [[= <- <-]|[=]].
  - intros v. at_worker v w; [|apply Hlock]. simpl in *. done.
  - apply Hsame. unfold has_printed. split; intros [[=]|[=]].
  - (* the critical section is entered *)
    intros v tid' nt'. at_worker v w; [|apply Hloc].
    intros [[=]|[= <- <-]]. apply (Hloc w). by left.
  - intros v. at_worker v w; [done|].
    split; [congruence|]. intros Hc. apply Hlock in Hc. congruence.
  - apply Hsame. unfold has_printed. split; intros [[=]|[=]].
  - (* the line is written *)
    intros v tid' nt'. at_worker v w; [by intros [[=]|[=]]|apply Hloc].
  - intros v. at_worker v w; [|apply Hlock]. simpl in *. done.
  - rewrite positions_insert_new; [|by rewrite Hw; intros [[=]|[=]]|by left|done].
    rewrite fmap_app, Hout. simpl. unfold line_of at 3.
    by destruct (Hloc w tid nt ltac:(by right)) as [-> ->].
  - (* the critical section is left *)
    intros v tid' nt'. at_worker v w; [by intros [[=]|[=]]|apply Hloc].
  - intros v. at_worker v w; [done|].
    specialize (Hlock v). simpl in Hlw. split; [done|]. intros Hc.
    apply Hlock in Hc. assert (lock σ = Some w) by (by apply Hlw). congruence.
  - apply Hsame. unfold has_printed. split; intros _; [by right|by left].
Qed.

Lemma probe_Inv_run T sched σ σ' : Inv T σ → run sched σ = Some σ' → Inv T σ'.
Proof.
  revert σ. induction sched as [|w sched IH]; intros σ HI Hrun; simplify_eq/=.
  - done.
  - destruct (worker_step w σ) as [σ1|] eqn:Hstep; [|done].
    eauto using probe_Inv_step.
Qed.

Lemma probe_reachable_Inv T σ : reachable T σ → Inv T σ.
Proof. intros [sched Hrun]. eauto using probe_Inv_run, probe_Inv_init. Qed.

(** At most one worker is inside the critical section. *)
Lemma probe_critical_exclusive T σ w1 w2 :
  Inv T σ → in_critical (pcs σ !! w1) → in_critical (pcs σ !! w2) → w1 = w2.
Proof.
  intros HI H1 H2. apply (inv_lock _ _ HI) in H1, H2. congruence.
Qed.

Lemma finished_lookup σ w :
  finished σ → (w < length (pcs σ))%nat → pcs σ !! w = Some Done.
Proof.
  intros Hfin Hw. destruct (lookup_lt_is_Some_2 _ _ Hw) as [p Hp].
  rewrite Hp. f_equal. by eapply (Forall_lookup_1 _ _ _ _ Hfin).
Qed.

Lemma probe_finished_unlocked T σ : Inv T σ → finished σ → lock σ = None.
Proof.
  intros HI Hfin. destruct (lock σ) as [w|] eqn:Hl; [|done].
  apply (inv_lock _ _ HI) in Hl. unfold in_critical in Hl.
  destruct (pcs σ !! w) as [p|] eqn:Hw; [|done].
  assert (p = Done) as -> by (by eapply (Forall_lookup_1 _ _ _ _ Hfin)).
  done.
Qed.

Lemma finished_out T σ :
  Inv T σ → finished σ → out σ ≡ₚ line_of T <$> seq 0 T.
Proof.
  intros HI Hfin. rewrite (inv_out _ _ HI), <-(inv_team _ _ HI).
  apply fmap_Permutation, positions_all.
  intros w Hw. right. by apply finished_lookup.
Qed.

(** Every step is one of the four steps a worker has to take. *)
Lemma step_measure w σ σ' :
  worker_step w σ = Some σ' → measure σ = S (measure σ').
Proof.
  unfold worker_step, measure.
  destruct (pcs σ !! w) as [p|] eqn:Hw; [|done]. simpl.
  destruct p as [|tid nt|tid nt| |]; [|destruct (lock σ); [done|]|..];
    intros ?; simplify_eq; simpl;
    match goal with
    | |- context [<[w:=?q]> _] =>
        pose proof (sum_insert remaining (pcs σ) w _ q Hw)
    end; simpl in *; lia.
Qed.

Global Instance finished_dec σ : Decision (finished σ).
Proof. unfold finished. apply _. Defined.

(** No deadlock: while a worker is not done, some worker can move. *)
Lemma probe_progress T σ :
  Inv T σ → ¬ finished σ → ∃ w, is_Some (worker_step w σ).
Proof.
  intros HI Hnf. apply not_Forall_Exists in Hnf; [|apply _].
  apply Exists_exists in Hnf as (p & Hp & Hnd).
  apply list_elem_of_lookup in Hp as [w Hw].
  destruct (lock σ) as [w0|] eqn:Hl.
  - exists w0. apply (inv_lock _ _ HI) in Hl. unfold worker_step.
    destruct (pcs σ !! w0) as [[| | | |]|]; simpl in *; done.
  - assert (¬ in_critical (pcs σ !! w)) as Hnc.
    { intros Hc. apply (inv_lock _ _ HI) in Hc. congruence. }
    exists w. unfold worker_step. rewrite Hw in *. simpl in *.
    destruct p; rewrite ?Hl; simpl in *; done.
Qed.

(** From every reachable state the region can be run to its end. *)
Lemma probe_completes T σ :
  Inv T σ → ∃ sched σ', run sched σ = Some σ' ∧ finished σ'.
Proof.
  remember (measure σ) as m eqn:Hm. revert σ Hm.
  induction m as [|m IH]; intros σ Hm HI.
  - destruct (decide (finished σ)) as [Hfin|Hnf].
    + by exists [], σ.
    + destruct (probe_progress T σ HI Hnf) as [w [σ1 Hstep]].
      apply step_measure in Hstep. lia.
  - destruct (decide (finished σ)) as [Hfin|Hnf]; [by exists [], σ|].
    destruct (probe_progress T σ HI Hnf) as [w [σ1 Hstep]].
    destruct (IH σ1) as (sched & σ' & Hrun & Hfin).
    { apply step_measure in Hstep. lia. }
    { eauto using probe_Inv_step. }
    exists (w :: sched), σ'. simpl. by rewrite Hstep.
Qed.

Lemma append_same_length_inj (s1 s2 r1 r2 : string) :
  String.length s1 = String.length s2 →
  s1 +:+ r1 = s2 +:+ r2 → s1 = s2.
Proof.
  revert s2. induction s1 as [|a s1 IH]; intros [|b s2] Hlen Heq;
    simplify_eq/=; [done|].
  f_equal. eauto.
Qed.

Lemma length_append (s1 s2 : string) :
  String.length (s1 +:+ s2) = (String.length s1 + String.length s2)%nat.
Proof. induction s1 as [|a s1 IH]; simpl; [done|]. by rewrite IH. Qed.

Lemma append_cancel_r (s1 s2 r : string) : s1 +:+ r = s2 +:+ r → s1 = s2.
Proof.
  intros Heq. apply (append_same_length_inj _ _ r r); [|done].
  apply (f_equal String.length) in Heq.
  rewrite !length_append in Heq. lia.
Qed.

Global Instance hello_line_inj nt : Inj (=) (=) (λ tid, hello_line tid nt).
Proof.
  intros tid1 tid2 Heq. unfold hello_line in Heq.
  apply (inj (String.app _)) in Heq.
  apply append_cancel_r in Heq. by apply (inj pretty) in Heq.
Qed.

Global Instance line_of_inj T : Inj (=) (=) (line_of T).
Proof.
  intros w1 w2 Heq. unfold line_of in Heq.
  apply (inj (λ tid, hello_line tid _)) in Heq. lia.
Qed.

Lemma out_length T σ :
  Inv T σ →
  length (out σ) = length (positions has_printed (pcs σ)) ∧
  (length (out σ) ≤ T)%nat.
Proof.
  intros HI. pose proof (inv_out _ _ HI) as Hout.
  apply Permutation_length in Hout. rewrite length_fmap in Hout.
  split; [done|]. rewrite Hout, <-(inv_team _ _ HI).
  unfold positions. etrans; [apply length_filter|]. by rewrite length_seq.
Qed.

Lemma finished_lines T σ :
  Inv T σ → finished σ →
  out σ ≡ₚ line_of T <$> seq 0 T ∧ length (out σ) = T ∧ NoDup (out σ).
Proof.
  intros HI Hfin. pose proof (finished_out T σ HI Hfin) as Hout.
  split_and!.
  - done.
  - by rewrite Hout, length_fmap, length_seq.
  - rewrite Hout. apply (NoDup_fmap_2 _), NoDup_seq.
Qed.

(** At the end of the region every worker has written its line once. *)
Lemma finished_line_once T σ w :
  Inv T σ → finished σ → (w < T)%nat →
  count_occ Stdlib.Strings.String.string_dec (out σ) (line_of T w) = 1%nat.
Proof.
  intros HI Hfin Hw.
  destruct (finished_lines T σ HI Hfin) as (Hout & _ & Hnd).
  assert (line_of T w ∈ out σ) as Hin.
  { rewrite Hout. apply list_elem_of_fmap_2, elem_of_seq. lia. }
  apply list_elem_of_In, (count_occ_In Stdlib.Strings.String.string_dec) in Hin.
  apply NoDup_ListNoDup in Hnd.
  pose proof (proj1 (NoDup_count_occ Stdlib.Strings.String.string_dec (out σ)) Hnd (line_of T w)).
  lia.
Qed.

(** One step of some worker. *)
Definition successor (σ' σ : state) : Prop := ∃ w, worker_step w σ = Some σ'.

(** No run goes on for ever: each step leaves the team less to do. *)
Lemma successor_wf : well_founded successor.
Proof.
  apply (well_founded_lt_compat _ measure).
  intros σ' σ [w Hstep]. apply step_measure in Hstep. lia.
Qed.

(** A state in which no worker can move is the end of the region. *)
Lemma probe_stuck_finished T σ :
  Inv T σ → (∀ w, worker_step w σ = None) → finished σ.
Proof.
  intros HI Hstuck. destruct (decide (finished σ)) as [|Hnf]; [done|].
  destruct (probe_progress T σ HI Hnf) as [w [σ' Hstep]].
  by rewrite Hstuck in Hstep.
Qed.

(** What has been written so far: lines of different workers of the team,
    each of them past its [printf]. *)
Lemma partial_output T σ :
  Inv T σ →
  NoDup (out σ) ∧
  ∀ l, l ∈ out σ →
       ∃ w, (w < T)%nat ∧ has_printed (pcs σ !! w) ∧ l = line_of T w.
Proof.
  intros HI. pose proof (inv_out _ _ HI) as Hout. split.
  - rewrite Hout. apply (NoDup_fmap_2 _), NoDup_positions.
  - intros l Hl. rewrite Hout in Hl.
    apply list_elem_of_fmap in Hl as (w & -> & Hw).
    apply elem_of_positions in Hw as [Hp Hlt].
    exists w. by rewrite <-(inv_team _ _ HI).
Qed.

End Warmup.

(** * The top level of the three programs *)
Module Runner.

(** The parallel regions of the sources. *)
Inductive region : Type :=
| Greeting        (* [omp_00_warmup.cpp], lines 15-22 *)
| ThreadCount     (* [omp_01_amdahl.cpp], lines 43-45 *)
| ParallelWork    (* [omp_01_amdahl.cpp], lines 30-33, inside [parallel_work] *)
| Simulator.      (* [omp_02_mutex_bottleneck.cpp], lines 28-46 *)

(** What [main] does, statement by statement, as far as regions, the timer
    and the report are concerned. *)
Inductive action : Type :=
| StartTimer              (* [t0 = high_resolution_clock::now()] *)
| StopTimer               (* [t1 = high_resolution_clock::now()] *)
| Fork (r : region)       (* a team enters region [r] *)
| Join (r : region)       (* the barrier at the end of region [r] *)
| SerialWork              (* the call of [serial_work] *)
| Report.                 (* the line written to [std::cout] *)

Global Instance region_eq_dec : EqDecision region.
Proof. solve_decision. Defined.
Global Instance action_eq_dec : EqDecision action.
Proof. solve_decision. Defined.

Definition warmup_main : list action :=
  [Fork Greeting; Join Greeting].

Definition amdahl_main : list action :=
  [Fork ThreadCount; Join ThreadCount;
   StartTimer; SerialWork; Fork ParallelWork; Join ParallelWork; StopTimer;
   Report].

Definition bottleneck_main : list action :=
  [StartTimer; Fork Simulator; Join Simulator; StopTimer; Report].

Definition is_fork (a : action) : bool :=
  match a with Fork _ => true | _ => false end.

(** The number of parallel regions a run enters. *)
Definition regions_entered (p : list action) : nat :=
  length (filter (λ a, is_fork a = true) p).

(** The states of a run as the specification names them.  A run starts in
    [NotStarted], is [Running] inside a parallel region, [Joined] after it
    and [Reported] once the result is printed; entering a region is only
    possible from [NotStarted], so a second region after [Joined] is
    refused. *)
Inductive run_state : Type := NotStarted | Running | Joined | Reported.

Definition run_next (s : run_state) (a : action) : option run_state :=
  match a, s with
  | Fork _, NotStarted => Some Running
  | Join _, Running => Some Joined
  | Report, Joined => Some Reported
  | Fork _, _ | Join _, _ | Report, _ => None
  | StartTimer, _ | StopTimer, _ | SerialWork, _ => Some s
  end.

Fixpoint run_machine (s : run_state) (p : list action) : option run_state :=
  match p with
  | [] => Some s
  | a :: p' => s' ← run_next s a; run_machine s' p'
  end.

(** What a run does from the start of the timer on. *)
Fixpoint timed_part (p : list action) : list action :=
  match p with
  | [] => []
  | a :: p' => if decide (a = StartTimer) then p else timed_part p'
  end.

(** The position of the first occurrence of an action. *)
Fixpoint index_of (a : action) (p : list action) : option nat :=
  match p with
  | [] => None
  | b :: p' => if decide (a = b) then Some 0%nat else S <$> index_of a p'
  end.

(** Region [r] runs inside the timed part of [p]: the timer is started, then
    the team forks, then it joins, then the timer is stopped. *)
Definition timed (p : list action) (r : region) : Prop :=
  ∃ i0 i1 i2 i3,
    index_of StartTimer p = Some i0 ∧ index_of (Fork r) p = Some i1 ∧
    index_of (Join r) p = Some i2 ∧ index_of StopTimer p = Some i3 ∧
    (i0 < i1 < i2)%nat ∧ (i2 < i3)%nat.

End Runner.

(** * [omp_02_mutex_bottleneck.cpp] *)
Module Bottleneck.
Import Schedule Team Runner.

(** The constants of [main]; durations in nanoseconds, the period of the
    clock. *)
Record config := Config {
  iters : nat;
  parallel_ns : Z;
  serial_ns : Z
}.

(** [iters = 200], [parallel_ms = 2.0], [serial_ms = 5.0]. *)
Definition program : config := Config 200 2000000 5000000.

(** Where a worker stands inside the region. *)
Inductive pc : Type :=
| AtSingle                            (* at [#pragma omp single] *)
| SingleBarrier                       (* at the barrier that ends [single] *)
| LoopHead (i : nat)                  (* about to test [i] against its bound *)
| ParallelSleep (i : nat) (wake : Z)  (* in the first [sleep_for] *)
| AtCritical (i : nat)                (* at [#pragma omp critical] *)
| SerialSleep (i : nat) (wake : Z)    (* in the [sleep_for] of the critical section *)
| Leaving (i : nat)                   (* awake, at the end of the critical section *)
| Finished.                           (* at the barrier that ends the loop and the region *)

Global Instance pc_eq_dec : EqDecision pc.
Proof. solve_decision. Defined.

(** Where [main] stands. *)
Inductive main_pc : Type :=
| MStart | MTimed | MRunning | MJoined | MStopped | MReported.

Global Instance main_pc_eq_dec : EqDecision main_pc.
Proof. solve_decision. Defined.

(** The line [main] prints; [wall] is [t1 - t0]. *)
Record report := MkReport {
  rep_threads : Z;
  rep_iters : nat;
  rep_parallel : Z;
  rep_serial : Z;
  rep_wall : Z
}.

Record state := State {
  main : main_pc;
  history : list action;     (* what [main] has done so far *)
  t0 : option Z;
  t1 : option Z;
  nt : Z;                    (* the shared variable [nt] *)
  single_taken : bool;       (* a worker has run the [single] block *)
  pcs : list pc;             (* the team; empty outside the region *)
  lock : option nat;         (* the worker inside the critical section *)
  now : Z;                   (* the clock *)
  log : list (nat * nat);    (* (worker, iteration) for each completed iteration *)
  out : option report
}.

Definition set_main (m : main_pc) (a : action) (σ : state) : state :=
  State m (history σ ++ [a]) (t0 σ) (t1 σ) (nt σ) (single_taken σ) (pcs σ)
        (lock σ) (now σ) (log σ) (out σ).
Definition set_t0 (t : Z) (σ : state) : state :=
  State (main σ) (history σ) (Some t) (t1 σ) (nt σ) (single_taken σ) (pcs σ)
        (lock σ) (now σ) (log σ) (out σ).
Definition set_t1 (t : Z) (σ : state) : state :=
  State (main σ) (history σ) (t0 σ) (Some t) (nt σ) (single_taken σ) (pcs σ)
        (lock σ) (now σ) (log σ) (out σ).
Definition set_nt (n : Z) (σ : state) : state :=
  State (main σ) (history σ) (t0 σ) (t1 σ) n true (pcs σ)
        (lock σ) (now σ) (log σ) (out σ).
Definition set_team (ps : list pc) (σ : state) : state :=
  State (main σ) (history σ) (t0 σ) (t1 σ) (nt σ) (single_taken σ) ps
        (lock σ) (now σ) (log σ) (out σ).
Definition set_pc (w : nat) (p : pc) (σ : state) : state :=
  set_team (<[w := p]> (pcs σ)) σ.
Definition set_lock (l : option nat) (σ : state) : state :=
  State (main σ) (history σ) (t0 σ) (t1 σ) (nt σ) (single_taken σ) (pcs σ)
        l (now σ) (log σ) (out σ).
Definition set_now (t : Z) (σ : state) : state :=
  State (main σ) (history σ) (t0 σ) (t1 σ) (nt σ) (single_taken σ) (pcs σ)
        (lock σ) t (log σ) (out σ).
Definition add_log (e : nat * nat) (σ : state) : state :=
  State (main σ) (history σ) (t0 σ) (t1 σ) (nt σ) (single_taken σ) (pcs σ)
        (lock σ) (now σ) (log σ ++ [e]) (out σ).
Definition set_out (r : report) (σ : state) : state :=
  State (main σ) (history σ) (t0 σ) (t1 σ) (nt σ) (single_taken σ) (pcs σ)
        (lock σ) (now σ) (log σ) (Some r).

Definition finished (σ : state) : Prop := Forall (λ p, p = Finished) (pcs σ).

Global Instance finished_dec σ : Decision (finished σ).
Proof. unfold finished. apply _. Defined.

Section Steps.
Context (cfg : config) (T : nat).

(** One step of worker [w] of a team of [T]: [omp_get_num_threads()] is [T]
    and the static schedule gives worker [w] the iterations from
    [chunk_lo (iters cfg) T w] up to [chunk_hi (iters cfg) T w]. *)
Definition worker_step (w : nat) (σ : state) : option state :=
  p ← pcs σ !! w;
  match p with
  | AtSingle =>
      if single_taken σ then Some (set_pc w SingleBarrier σ)
      else Some (set_pc w SingleBarrier (set_nt (Z.of_nat T) σ))
  | SingleBarrier =>
      if decide (AtSingle ∈ pcs σ) then None
      else Some (set_pc w (LoopHead (chunk_lo (iters cfg) T w)) σ)
  | LoopHead i =>
      if decide (i < chunk_hi (iters cfg) T w)%nat
      then Some (set_pc w (ParallelSleep i (now σ + parallel_ns cfg)) σ)
      else Some (set_pc w Finished σ)
  | ParallelSleep i wake =>
      if decide (wake ≤ now σ) then Some (set_pc w (AtCritical i) σ) else None
  | AtCritical i =>
      match lock σ with
      | None =>
          Some (set_lock (Some w)
                  (set_pc w (SerialSleep i (now σ + serial_ns cfg)) σ))
      | Some _ => None
      end
  | SerialSleep i wake =>
      if decide (wake ≤ now σ) then Some (set_pc w (Leaving i) σ) else None
  | Leaving i =>
      Some (set_lock None (add_log (w, i) (set_pc w (LoopHead (S i)) σ)))
  | Finished => None
  end.

(** One step of [main]. *)
Definition main_step (σ : state) : option state :=
  match main σ with
  | MStart => Some (set_main MTimed StartTimer (set_t0 (now σ) σ))
  | MTimed =>
      Some (set_main MRunning (Fork Simulator) (set_team (replicate T AtSingle) σ))
  | MRunning =>
      if decide (finished σ) then Some (set_main MJoined (Join Simulator) σ)
      else None
  | MJoined => Some (set_main MStopped StopTimer (set_t1 (now σ) σ))
  | MStopped =>
      t ← t0 σ; t' ← t1 σ;
      Some (set_main MReported Report
              (set_out (MkReport (nt σ) (iters cfg) (parallel_ns cfg)
                          (serial_ns cfg) (t' - t)) σ))
  | MReported => None
  end.

(** What can happen next: time passes, [main] moves, or a worker moves. *)
Inductive event : Type := Tick (d : Z) | Main | Worker (w : nat).

Definition exec (e : event) (σ : state) : option state :=
  match e with
  | Tick d => if decide (0 ≤ d) then Some (set_now (now σ + d) σ) else None
  | Main => main_step σ
  | Worker w => worker_step w σ
  end.

Fixpoint run (es : list event) (σ : state) : option state :=
  match es with
  | [] => Some σ
  | e :: es' => σ' ← exec e σ; run es' σ'
  end.

(** [main] is entered with [nt = 0] and the clock at [start]. *)
Definition init (start : Z) : state :=
  State MStart [] None None 0 false [] None start [] None.

Definition reachable (σ : state) : Prop :=
  ∃ start es, run es (init start) = Some σ.

(** ** Invariants *)

Definition phase (m : main_pc) : nat :=
  match m with
  | MStart => 0 | MTimed => 1 | MRunning => 2
  | MJoined => 3 | MStopped => 4 | MReported => 5
  end.

(** The contended phase: inside [#pragma omp critical]. *)
Definition in_critical (o : option pc) : Prop :=
  match o with
  | Some (SerialSleep _ _) | Some (Leaving _) => True
  | _ => False
  end.

(** The next iteration of worker [w] that is not completed. *)
Definition cur (w : nat) (p : pc) : nat :=
  match p with
  | AtSingle | SingleBarrier => chunk_lo (iters cfg) T w
  | LoopHead i | ParallelSleep i _ | AtCritical i | SerialSleep i _
  | Leaving i => i
  | Finished => chunk_hi (iters cfg) T w
  end.

Definition in_bounds (w : nat) (p : pc) : Prop :=
  match p with
  | AtSingle | SingleBarrier | Finished => True
  | LoopHead i =>
      (chunk_lo (iters cfg) T w ≤ i ≤ chunk_hi (iters cfg) T w)%nat
  | ParallelSleep i _ | AtCritical i | SerialSleep i _ | Leaving i =>
      (chunk_lo (iters cfg) T w ≤ i < chunk_hi (iters cfg) T w)%nat
  end.

Record Inv (σ : state) : Prop := {
  inv_history : history σ = take (phase (main σ)) bottleneck_main;
  inv_no_team : (phase (main σ) < 2)%nat →
                pcs σ = [] ∧ log σ = [] ∧ lock σ = None;
  inv_team : (2 ≤ phase (main σ))%nat → length (pcs σ) = T;
  inv_joined : (3 ≤ phase (main σ))%nat → finished σ;
  inv_t0 : match t0 σ with
           | None => main σ = MStart
           | Some τ0 => main σ ≠ MStart ∧ τ0 ≤ now σ
           end;
  inv_t1 : match t1 σ with
           | None => (phase (main σ) < 4)%nat
           | Some τ1 =>
               (4 ≤ phase (main σ))%nat ∧ τ1 ≤ now σ ∧
               ∀ τ0, t0 σ = Some τ0 →
                     τ0 ≤ τ1 ∧
                     τ0 + serial_ns cfg * Z.of_nat (length (log σ)) ≤ τ1
           end;
  inv_lock : ∀ w, lock σ = Some w ↔ in_critical (pcs σ !! w);
  inv_bounds : ∀ w p, pcs σ !! w = Some p → in_bounds w p;
  inv_log_nodup : NoDup (log σ);
  inv_log : ∀ w i, (w, i) ∈ log σ ↔
              ∃ p, pcs σ !! w = Some p ∧
                   (chunk_lo (iters cfg) T w ≤ i < cur w p)%nat;
  inv_time : ∀ τ0, t0 σ = Some τ0 →
             τ0 + serial_ns cfg * Z.of_nat (length (log σ)) ≤ now σ;
  inv_wake : ∀ τ0 w i wake,
             t0 σ = Some τ0 → pcs σ !! w = Some (SerialSleep i wake) →
             τ0 + serial_ns cfg * (Z.of_nat (length (log σ)) + 1) ≤ wake;
  inv_awake : ∀ τ0 w i,
             t0 σ = Some τ0 → pcs σ !! w = Some (Leaving i) →
             τ0 + serial_ns cfg * (Z.of_nat (length (log σ)) + 1) ≤ now σ;
  inv_single : ∀ w p, pcs σ !! w = Some p → p ≠ AtSingle →
               single_taken σ = true;
  inv_nt : single_taken σ = true → nt σ = Z.of_nat T;
  inv_out : match out σ with
            | None => (phase (main σ) < 5)%nat
            | Some r =>
                main σ = MReported ∧
                ∃ τ0 τ1, t0 σ = Some τ0 ∧ t1 σ = Some τ1 ∧
                  r = MkReport (nt σ) (iters cfg) (parallel_ns cfg)
                        (serial_ns cfg) (τ1 - τ0)
            end
}.

Lemma Inv_init start : Inv (init start).
Proof.
  split; simpl; try done; try lia.
  - constructor.
  - intros w i. split; [by intros ?%elem_of_nil|].
    intros (p & Hp & _). by rewrite lookup_nil in Hp.
Qed.

Lemma Inv_tick d σ : (0 ≤ d) → Inv σ → Inv (set_now (now σ + d) σ).
Proof.
  intros Hd [].
  split; simpl; try done.
  - destruct (t0 σ); [|done]. split; [tauto|lia].
  - destruct (t1 σ); [|done]. split_and!; try tauto; lia.
  - intros τ0 Ht0. specialize (inv_time0 τ0 Ht0). lia.
  - intros τ0 w i Ht0 Hw. specialize (inv_awake0 τ0 w i Ht0 Hw). lia.
Qed.

Lemma Inv_main σ σ' : Inv σ → main_step σ = Some σ' → Inv σ'.
Proof.
  intros HI Hstep. pose proof HI as []. unfold main_step in Hstep.
  destruct (main σ) eqn:Hm; try case_decide; simplify_option_eq.
  - destruct inv_no_team0 as (Hpcs & Hlog & Hlock); [lia|].
    split; simpl; rewrite ?Hpcs, ?Hlog in *; simpl; try done; try lia.
    + by rewrite inv_history0.
    + by destruct (t1 σ); [lia|lia].
    + intros τ0 ?. simplify_eq. lia.
    + by destruct (out σ) as [r|]; [destruct inv_out0|lia].
  - destruct inv_no_team0 as (Hpcs & Hlog & Hlock); [lia|].
    split; simpl; rewrite ?Hlog in *; simpl; try done; try lia.
    + by rewrite inv_history0.
    + intros _. apply length_replicate.
    + destruct (t0 σ); [|done]. split; [done|tauto].
    + by destruct (t1 σ); [lia|lia].
    + intros w. rewrite Hlock. split; [done|].
      destruct (replicate T AtSingle !! w) as [p|] eqn:E; [|done].
      by apply lookup_replicate in E as [-> _].
    + intros w p [-> _]%lookup_replicate. done.
    + intros w i. split; [by intros ?%elem_of_nil|].
      intros (p & [-> _]%lookup_replicate & Hi). simpl in Hi. lia.
    + intros τ0 w i wake _ [? _]%lookup_replicate. done.
    + intros τ0 w i _ [? _]%lookup_replicate. done.
    + intros w p [-> _]%lookup_replicate. done.
    + by destruct (out σ) as [r|]; [destruct inv_out0|lia].
  - split; simpl; try done; try lia.
    + by rewrite inv_history0.
    + destruct (t0 σ); [|done]. split; [done|tauto].
    + by destruct (t1 σ); [lia|lia].
    + by destruct (out σ) as [r|]; [destruct inv_out0|lia].
  - split; simpl; try done; try lia.
    + by rewrite inv_history0.
    + intros _. apply inv_joined0. lia.
    + destruct (t0 σ); [|done]. split; [done|tauto].
    + split_and!; [lia|lia|]. intros τ0 Hτ0. split; [|by apply inv_time0].
      rewrite Hτ0 in inv_t2. tauto.
    + by destruct (out σ) as [r|]; [destruct inv_out0|lia].
  - split; simpl; try done; try lia.
    + by rewrite inv_history0.
    + intros _. apply inv_joined0. lia.
    + match goal with H : t0 σ = Some _ |- _ => rewrite H end.
      split; [done|apply inv_t2].
    + match goal with H : t1 σ = Some _ |- _ => rewrite H end.
      destruct inv_t3 as (_ & ? & Hwall). split_and!; [lia|done|].
      intros τ0 Hτ0. apply Hwall. congruence.
    + intros τ0 Hτ0. apply inv_time0. congruence.
    + intros τ0 w i wake Hτ0. apply inv_wake0. congruence.
    + intros τ0 w i Hτ0. apply inv_awake0. congruence.
    + split; [done|]. eauto.
Qed.

Lemma worker_step_running w σ σ' :
  Inv σ → worker_step w σ = Some σ' → main σ = MRunning.
Proof.
  intros [] Hstep. unfold worker_step in Hstep.
  destruct (pcs σ !! w) as [p|] eqn:Hw; [|done]. simpl in Hstep.
  destruct (decide (phase (main σ) < 2)%nat) as [Hlt|Hge].
  { destruct inv_no_team0 as (Hpcs & _); [done|]. by rewrite Hpcs in Hw. }
  destruct (decide (3 ≤ phase (main σ))%nat) as [Hjoin|Hrun].
  { pose proof (Forall_lookup_1 _ _ _ _ (inv_joined0 Hjoin) Hw) as ->. done. }
  destruct (main σ); simpl in *; done || lia.
Qed.

Lemma Inv_worker w σ σ' : Inv σ → worker_step w σ = Some σ' → Inv σ'.
Proof.
  intros HI Hstep. pose proof (worker_step_running _ _ _ HI Hstep) as Hm.
  pose proof HI as []. unfold worker_step in Hstep.
  destruct (pcs σ !! w) as [p|] eqn:Hw; [|done]. simpl in Hstep.
  assert (w < length (pcs σ))%nat as Hlt by (by eapply lookup_lt_Some).
  rewrite Hm in *. simpl in *. clear inv_no_team0 inv_joined0.
  destruct (t0 σ) as [τ0|] eqn:Ht0; [|done].
  destruct (t1 σ) as [τ1|] eqn:Ht1; [lia|].
  destruct (out σ) as [r|] eqn:Hout; [by destruct inv_out0|].
  pose proof (inv_lock0 w) as Hlw. rewrite Hw in Hlw.
  pose proof (inv_bounds0 w p Hw) as Hbw.
  pose proof (inv_single0 w p Hw) as Hsw.
  pose proof (inv_log0 w) as Hlogw. setoid_rewrite Hw in Hlogw.
  destruct p as [| |i|i wake|i|i wake|i|]; repeat case_match; simplify_eq;
    split; simpl; rewrite ?Hm, ?Ht0, ?Ht1, ?Hout, ?length_insert; simpl;
    try done; try lia.
  all: try (intros v; at_worker v w; [simpl in *; tauto|apply inv_lock0]).
  all: try (intros v q; at_worker v w;
            [intros [= <-]; simpl in *; lia|apply inv_bounds0]).
  all: try (intros v j; at_worker v w; [|apply inv_log0];
            rewrite Hlogw; split; intros (? & [= <-] & ?);
            (eexists; split; [done|]); simpl in *; lia).
  all: try (intros τ v j wk [= <-]; at_worker v w;
            [done|by apply inv_wake0]).
  all: try (intros τ v j [= <-]; at_worker v w;
            [done|by apply inv_awake0]).
  all: try (intros v q; at_worker v w; [|apply inv_single0];
            intros _ _; by apply Hsw).
  - (* the loop starts at the first iteration of the chunk *)
    intros v q. at_worker v w; [|apply inv_bounds0].
    intros [= <-]. simpl. unfold chunk_hi. lia.
  - (* the lock is taken *)
    intros v. at_worker v w; [done|].
    split; [congruence|]. intros Hv%inv_lock0. congruence.
  - (* the wake-up time of the serialized sleep *)
    intros τ v j wk [= <-]. at_worker v w; [|by apply inv_wake0].
    intros [= <- <-]. specialize (inv_time0 _ eq_refl). lia.
  - (* the serialized sleep is over *)
    intros τ v j [= <-]. at_worker v w; [|by apply inv_awake0].
    intros [= <-]. specialize (inv_wake0 _ _ _ _ eq_refl Hw). lia.
  - (* the lock is released *)
    intros v. at_worker v w; [done|].
    split; [done|]. intros Hv%inv_lock0.
    assert (lock σ = Some w) by (by apply Hlw). congruence.
  - apply NoDup_app. split_and!; [done| |apply NoDup_singleton].
    intros e He ->%list_elem_of_singleton.
    apply Hlogw in He as (? & [= <-] & ?). simpl in *. lia.
  - intros v j. rewrite elem_of_app, list_elem_of_singleton.
    at_worker v w.
    + rewrite Hlogw. split.
      * intros [(? & [= <-] & ?)|[= ->]]; (eexists; split; [done|]);
          simpl in *; lia.
      * intros (? & [= <-] & ?). simpl in *.
        destruct (decide (j = i)) as [->|]; [by right|left].
        eexists; split; [done|]. simpl. lia.
    + rewrite inv_log0. split; [|by left]. intros [|[= ]]; done.
  - intros τ [= <-]. rewrite length_app. simpl.
    specialize (inv_awake0 _ _ _ eq_refl Hw). lia.
  - intros τ v j wk [= <-]. at_worker v w; [done|]. intros Hv.
    assert (lock σ = Some v) by (apply inv_lock0; by rewrite Hv).
    assert (lock σ = Some w) by (by apply Hlw). congruence.
  - intros τ v j [= <-]. at_worker v w; [done|]. intros Hv.
    assert (lock σ = Some v) by (apply inv_lock0; by rewrite Hv).
    assert (lock σ = Some w) by (by apply Hlw). congruence.
Qed.

Lemma Inv_exec e σ σ' : Inv σ → exec e σ = Some σ' → Inv σ'.
Proof.
  intros HI. destruct e as [d| |w]; simpl.
  - case_decide; [|done]. intros [= <-]. by apply Inv_tick.
  - by apply Inv_main.
  - by apply Inv_worker.
Qed.

Lemma Inv_run es σ σ' : Inv σ → run es σ = Some σ' → Inv σ'.
Proof.
  revert σ. induction es as [|e es IH]; intros σ HI Hrun; simplify_eq/=.
  - done.
  - destruct (exec e σ) as [σ1|] eqn:Hstep; [|done].
    eauto using Inv_exec.
Qed.

Lemma reachable_Inv σ : reachable σ → Inv σ.
Proof. intros (start & es & Hrun). eauto using Inv_run, Inv_init. Qed.

(** ** What the invariants give *)

(** At most one worker is inside the critical section. *)
Lemma critical_exclusive σ w1 w2 :
  Inv σ → in_critical (pcs σ !! w1) → in_critical (pcs σ !! w2) → w1 = w2.
Proof.
  intros HI H1 H2. apply (inv_lock _ HI) in H1, H2. congruence.
Qed.

Lemma team_size σ w p : Inv σ → pcs σ !! w = Some p → (w < T)%nat.
Proof.
  intros HI Hw. rewrite <-(inv_team _ HI).
  - by eapply lookup_lt_Some.
  - destruct (decide (2 ≤ phase (main σ))%nat); [done|].
    destruct (inv_no_team _ HI) as (Hpcs & _); [lia|]. by rewrite Hpcs in Hw.
Qed.

Lemma cur_le_hi σ w p :
  Inv σ → pcs σ !! w = Some p → (cur w p ≤ chunk_hi (iters cfg) T w)%nat.
Proof.
  intros HI Hw. pose proof (inv_bounds _ HI w p Hw) as Hb.
  destruct p; simpl in *; unfold chunk_hi in *; lia.
Qed.

(** A completed iteration belongs to the chunk of the worker that ran it. *)
Lemma log_in_chunk σ w i :
  Inv σ → (w, i) ∈ log σ →
  (w < T)%nat ∧ (chunk_lo (iters cfg) T w ≤ i < chunk_hi (iters cfg) T w)%nat.
Proof.
  intros HI (p & Hw & Hi)%(inv_log _ HI).
  pose proof (cur_le_hi σ w p HI Hw). split; [by eapply team_size|lia].
Qed.

(** No iteration is completed twice. *)
Lemma log_indices_NoDup σ : Inv σ → NoDup (log σ).*2.
Proof.
  intros HI. apply NoDup_fmap_2_strong; [|apply (inv_log_nodup _ HI)].
  intros [w1 i1] [w2 i2] H1 H2 Heq. simpl in Heq. subst i2.
  apply (log_in_chunk _ _ _ HI) in H1 as [_ H1], H2 as [_ H2].
  f_equal. by eapply chunk_disjoint.
Qed.

(** When the team has joined every iteration has been completed once. *)
Lemma finished_log σ :
  (1 ≤ T)%nat → Inv σ → (2 ≤ phase (main σ))%nat → finished σ →
  (log σ).*2 ≡ₚ seq 0 (iters cfg).
Proof.
  intros HT HI Hph Hfin.
  apply NoDup_Permutation; [by apply log_indices_NoDup|apply NoDup_seq|].
  intros i. rewrite elem_of_seq, list_elem_of_fmap. split.
  - intros ([w j] & -> & Hin). simpl.
    apply (log_in_chunk _ _ _ HI) in Hin as [Hw Hi].
    pose proof (chunk_hi_le (iters cfg) T w Hw). lia.
  - intros [_ Hi]. simpl in Hi.
    destruct (chunk_exists (iters cfg) T i HT Hi) as (w & Hw & Hiw).
    exists (w, i). split; [done|]. apply (inv_log _ HI).
    rewrite <-(inv_team _ HI Hph) in Hw.
    destruct (lookup_lt_is_Some_2 _ _ Hw) as [p Hp].
    pose proof (Forall_lookup_1 _ _ _ _ Hfin Hp) as ->.
    exists Finished. split; [done|]. simpl. lia.
Qed.

(** The time between the two readings of the clock. *)
Lemma wall_bound σ τ0 τ1 :
  (1 ≤ T)%nat → Inv σ → t0 σ = Some τ0 → t1 σ = Some τ1 →
  Z.of_nat (iters cfg) * serial_ns cfg ≤ τ1 - τ0.
Proof.
  intros HT HI Ht0 Ht1. pose proof (inv_t1 _ HI) as Hinv.
  rewrite Ht1 in Hinv. destruct Hinv as (Hph & _ & Hwall).
  specialize (Hwall τ0 Ht0).
  pose proof (finished_log σ HT HI ltac:(lia) (inv_joined _ HI ltac:(lia)))
    as Hlog.
  apply Permutation_length in Hlog.
  rewrite length_fmap, length_seq in Hlog. rewrite Hlog in Hwall. lia.
Qed.


(** What the report says. *)
Lemma report_sound σ r :
  (1 ≤ T)%nat → Inv σ → out σ = Some r →
  rep_threads r = Z.of_nat T ∧
  Z.of_nat (iters cfg) * serial_ns cfg ≤ rep_wall r ∧
  ∃ τ0 τ1, t0 σ = Some τ0 ∧ t1 σ = Some τ1 ∧ rep_wall r = τ1 - τ0.
Proof.
  intros HT HI Hr. pose proof (inv_out _ HI) as Hout. rewrite Hr in Hout.
  destruct Hout as (Hm & τ0 & τ1 & Ht0 & Ht1 & ->). simpl.
  split_and!; [|by eapply wall_bound|by eauto].
  apply (inv_nt _ HI).
  assert (0 < length (pcs σ))%nat as Hlen.
  { rewrite (inv_team _ HI); [lia|]. rewrite Hm. simpl. lia. }
  destruct (lookup_lt_is_Some_2 _ _ Hlen) as [p Hp].
  apply (inv_single _ HI 0%nat p Hp).
  assert (finished σ) as Hfin by (apply (inv_joined _ HI); rewrite Hm; simpl; lia).
  by rewrite (Forall_lookup_1 _ _ _ _ Hfin Hp).
Qed.

(** The timer is running while the team exists, and it is stopped only
    after every worker has reached the last barrier. *)
Lemma timer_window σ :
  Inv σ →
  (pcs σ ≠ [] → ∃ τ0, t0 σ = Some τ0 ∧ τ0 ≤ now σ) ∧
  (∀ τ1, t1 σ = Some τ1 →
         finished σ ∧ ∃ τ0, t0 σ = Some τ0 ∧ τ0 ≤ τ1 ∧ τ1 ≤ now σ).
Proof.
  intros HI. pose proof (inv_t0 _ HI) as Ht0. pose proof (inv_t1 _ HI) as Ht1.
  split.
  - intros Hteam. destruct (t0 σ) as [τ0|]; [exists τ0; tauto|].
    destruct (inv_no_team _ HI) as (Hpcs & _); [rewrite Ht0; simpl; lia|done].
  - intros τ1 E1. rewrite E1 in Ht1. destruct Ht1 as (Hph & Hnow & Hwall).
    split; [apply (inv_joined _ HI); lia|].
    destruct (t0 σ) as [τ0|]; [|rewrite Ht0 in Hph; simpl in Hph; lia].
    exists τ0. destruct (Hwall τ0 eq_refl). done.
Qed.

(** ** Every run can be completed *)

(** The steps worker [w] still has to take. *)
Definition remaining (w : nat) (p : pc) : nat :=
  let hi := chunk_hi (iters cfg) T w in
  match p with
  | AtSingle => 3 + 5 * chunk_len (iters cfg) T w
  | SingleBarrier => 2 + 5 * chunk_len (iters cfg) T w
  | LoopHead i => 5 * (hi - i) + 1
  | ParallelSleep i _ => 5 * (hi - i)
  | AtCritical i => 5 * (hi - i) - 1
  | SerialSleep i _ => 5 * (hi - i) - 2
  | Leaving i => 5 * (hi - i) - 3
  | Finished => 0
  end.

Definition team_measure (σ : state) : nat := sum_list (imap remaining (pcs σ)).

Lemma run_app es1 es2 σ : run (es1 ++ es2) σ = run es1 σ ≫= run es2.
Proof.
  revert σ. induction es1 as [|e es1 IH]; intros σ; simpl; [done|].
  destruct (exec e σ); simpl; [apply IH|done].
Qed.

Lemma worker_step_measure w σ σ' :
  Inv σ → worker_step w σ = Some σ' → team_measure σ = S (team_measure σ').
Proof.
  intros HI Hstep. unfold worker_step in Hstep.
  destruct (pcs σ !! w) as [p|] eqn:Hw; [|done]. simpl in Hstep.
  pose proof (inv_bounds _ HI w p Hw) as Hb.
  unfold team_measure.
  destruct p as [| |i|i wake|i|i wake|i|]; repeat case_match; simplify_eq;
    simpl;
    match goal with
    | |- context [<[w:=?q]> _] =>
        pose proof (sum_imap_insert remaining (pcs σ) w _ q Hw)
    end; simpl in *; unfold chunk_hi in *; lia.
Qed.

Lemma tick_measure d σ : team_measure (set_now d σ) = team_measure σ.
Proof. done. Qed.

(** No deadlock: while the team is at work, some worker can move, at once
    or when its sleep is over. *)
Lemma worker_progress σ :
  Inv σ → main σ = MRunning → ¬ finished σ →
  ∃ d w σ', run [Tick d; Worker w] σ = Some σ'.
Proof.
  intros HI Hm Hnf.
  assert (∀ w, is_Some (worker_step w σ) →
            ∃ d w σ', run [Tick d; Worker w] σ = Some σ') as Hnow.
  { intros w [σ' Hstep]. exists 0, w, σ'. simpl.
    replace (set_now (now σ + 0) σ) with σ; [by rewrite Hstep|].
    destruct σ; unfold set_now; simpl; f_equal; lia. }
  assert (∀ w i wake, pcs σ !! w = Some (ParallelSleep i wake) ∨
                      pcs σ !! w = Some (SerialSleep i wake) →
            ∃ d w σ', run [Tick d; Worker w] σ = Some σ') as Hsleep.
  { intros w i wake Hw. exists (Z.max 0 (wake - now σ)), w. simpl.
    rewrite decide_True by lia. simpl. unfold worker_step. simpl.
    destruct Hw as [-> | ->]; simpl; rewrite decide_True by lia; eauto. }
  apply not_Forall_Exists in Hnf; [|apply _].
  apply Exists_exists in Hnf as (p & Hp & Hnd).
  apply list_elem_of_lookup in Hp as [w Hw].
  destruct (lock σ) as [w0|] eqn:Hl.
  - pose proof Hl as Hc. apply (inv_lock _ HI) in Hc.
    destruct (pcs σ !! w0) as [[| |i|i wake|i|i wake|i|]|] eqn:Hw0; try done.
    + eapply Hsleep. eauto.
    + apply (Hnow w0).
      unfold worker_step. rewrite Hw0. simpl. eauto.
  - assert (¬ in_critical (pcs σ !! w)) as Hnc.
    { intros Hc. apply (inv_lock _ HI) in Hc. congruence. }
    destruct (decide (AtSingle ∈ pcs σ)) as [Hs|Hs].
    + apply list_elem_of_lookup in Hs as [w1 Hw1].
      apply (Hnow w1).
      unfold worker_step. rewrite Hw1. simpl. destruct (single_taken σ); eauto.
    + rewrite Hw in Hnc.
      destruct p as [| |i|i wake|i|i wake|i|]; try done.
      * exfalso. apply Hs. by eapply list_elem_of_lookup_2.
      * apply (Hnow w).
        unfold worker_step. rewrite Hw. simpl. rewrite decide_False by done. eauto.
      * apply (Hnow w).
        unfold worker_step. rewrite Hw. simpl. case_decide; eauto.
      * eapply Hsleep. eauto.
      * apply (Hnow w).
        unfold worker_step. rewrite Hw. simpl. rewrite Hl. eauto.
      * by destruct Hnd.
Qed.

Lemma run_main_pc_worker d w σ σ' :
  run [Tick d; Worker w] σ = Some σ' → main σ' = main σ.
Proof.
  simpl. case_decide; [|done]. simpl. unfold worker_step. simpl.
  destruct (pcs σ !! w) as [p|]; [|done]. simpl.
  destruct p; repeat case_match; intros; simplify_eq/=; done.
Qed.

(** The team can always be run until every worker is at the last barrier. *)
Lemma team_completes σ :
  Inv σ → main σ = MRunning →
  ∃ es σ', run es σ = Some σ' ∧ main σ' = MRunning ∧ finished σ'.
Proof.
  remember (team_measure σ) as m eqn:Hmeas. revert σ Hmeas.
  induction m as [m IH] using lt_wf_ind. intros σ -> HI Hm.
  destruct (decide (finished σ)) as [Hfin|Hnf]; [by exists [], σ|].
  destruct (worker_progress σ HI Hm Hnf) as (d & w & σ1 & Hrun).
  pose proof (Inv_run _ _ _ HI Hrun) as HI1.
  pose proof (run_main_pc_worker _ _ _ _ Hrun) as Hm1.
  assert (team_measure σ = S (team_measure σ1)) as Hdec.
  { simpl in Hrun. case_decide; [|done]. simpl in Hrun.
    destruct (worker_step w (set_now (now σ + d) σ)) as [σ2|] eqn:Hstep;
      simplify_eq/=.
    rewrite <-(tick_measure (now σ + d) σ).
    apply (worker_step_measure w); [|done]. by apply Inv_tick. }
  destruct (IH (team_measure σ1) ltac:(lia) σ1 eq_refl HI1) as
    (es & σ' & Hrun' & Hm' & Hfin'); [congruence|].
  exists ([Tick d; Worker w] ++ es), σ'. rewrite run_app, Hrun. done.
Qed.

(** From every reachable state the program can be run to its report. *)
Lemma completes σ :
  Inv σ → ∃ es σ', run es σ = Some σ' ∧ main σ' = MReported.
Proof.
  intros HI.
  assert (∀ σ, Inv σ → main σ = MStopped →
            ∃ es σ', run es σ = Some σ' ∧ main σ' = MReported) as H4.
  { clear σ HI. intros σ HI Hm.
    pose proof (inv_t0 _ HI) as Ht0. pose proof (inv_t1 _ HI) as Ht1.
    rewrite Hm in *. simpl in *.
    destruct (t0 σ) as [τ0|] eqn:E0; [|done].
    destruct (t1 σ) as [τ1|] eqn:E1; [|lia].
    eexists [Main], _. simpl. unfold main_step. rewrite Hm, E0, E1. done. }
  assert (∀ σ, Inv σ → main σ = MJoined →
            ∃ es σ', run es σ = Some σ' ∧ main σ' = MReported) as H3.
  { clear σ HI. intros σ HI Hm.
    destruct (main_step σ) as [σ1|] eqn:Hstep;
      [|by unfold main_step in Hstep; rewrite Hm in Hstep].
    destruct (H4 σ1) as (es & σ' & Hrun & Hm'); [by eapply Inv_main|..].
    { unfold main_step in Hstep. rewrite Hm in Hstep. by simplify_eq. }
    exists (Main :: es), σ'. simpl. by rewrite Hstep. }
  assert (∀ σ, Inv σ → main σ = MRunning →
            ∃ es σ', run es σ = Some σ' ∧ main σ' = MReported) as H2.
  { clear σ HI. intros σ HI Hm.
    destruct (team_completes σ HI Hm) as (es1 & σ1 & Hrun1 & Hm1 & Hfin1).
    pose proof (Inv_run _ _ _ HI Hrun1) as HI1.
    destruct (main_step σ1) as [σ2|] eqn:Hstep;
      [|by unfold main_step in Hstep; rewrite Hm1, decide_True in Hstep].
    destruct (H3 σ2) as (es & σ' & Hrun & Hm'); [by eapply Inv_main|..].
    { unfold main_step in Hstep. rewrite Hm1, decide_True in Hstep by done.
      by simplify_eq. }
    exists (es1 ++ Main :: es), σ'. rewrite run_app, Hrun1. simpl.
    by rewrite Hstep. }
  assert (∀ σ, Inv σ → main σ = MTimed →
            ∃ es σ', run es σ = Some σ' ∧ main σ' = MReported) as H1.
  { clear σ HI. intros σ HI Hm.
    destruct (main_step σ) as [σ1|] eqn:Hstep;
      [|by unfold main_step in Hstep; rewrite Hm in Hstep].
    destruct (H2 σ1) as (es & σ' & Hrun & Hm'); [by eapply Inv_main|..].
    { unfold main_step in Hstep. rewrite Hm in Hstep. by simplify_eq. }
    exists (Main :: es), σ'. simpl. by rewrite Hstep. }
  destruct (main σ) eqn:Hm; eauto.
  - destruct (main_step σ) as [σ1|] eqn:Hstep;
      [|by unfold main_step in Hstep; rewrite Hm in Hstep].
    destruct (H1 σ1) as (es & σ' & Hrun & Hm'); [by eapply Inv_main|..].
    { unfold main_step in Hstep. rewrite Hm in Hstep. by simplify_eq. }
    exists (Main :: es), σ'. simpl. by rewrite Hstep.
  - by exists [], σ.
Qed.

(** ** The barrier after [single], the time each worker needs, and the order
    of its iterations *)

(** The worker has left the barrier that ends [single]. *)
Definition past_single (p : pc) : Prop := p ≠ AtSingle ∧ p ≠ SingleBarrier.

(** One iteration of the loop body: the two sleeps. *)
Definition span : Z := parallel_ns cfg + serial_ns cfg.

(** The iterations worker [w] has behind it when it is at iteration [i]. *)
Definition behind (w i : nat) : Z :=
  Z.of_nat i - Z.of_nat (chunk_lo (iters cfg) T w).

(** What the clock, or the wake-up time of a sleeping worker, is at least,
    for a timer started at [τ0]: the worker has slept through every
    iteration behind it, and a critical section is entered only after the
    first sleep and after the critical sections completed before it. *)
Definition worker_clock (τ0 : Z) (σ : state) (w : nat) (p : pc) : Prop :=
  let served := Z.of_nat (length (log σ)) in
  match p with
  | AtSingle | SingleBarrier => True
  | LoopHead i => τ0 + behind w i * span ≤ now σ
  | ParallelSleep i wake =>
      τ0 + behind w i * span + parallel_ns cfg ≤ wake ∧
      τ0 + parallel_ns cfg ≤ wake
  | AtCritical i =>
      τ0 + behind w i * span + parallel_ns cfg ≤ now σ ∧
      τ0 + parallel_ns cfg ≤ now σ
  | SerialSleep i wake =>
      τ0 + (behind w i + 1) * span ≤ wake ∧
      τ0 + parallel_ns cfg + serial_ns cfg * (served + 1) ≤ wake
  | Leaving i =>
      τ0 + (behind w i + 1) * span ≤ now σ ∧
      τ0 + parallel_ns cfg + serial_ns cfg * (served + 1) ≤ now σ
  | Finished => τ0 + Z.of_nat (chunk_len (iters cfg) T w) * span ≤ now σ
  end.

Record Inv2 (σ : state) : Prop := {
  inv_barrier : ∀ w p, pcs σ !! w = Some p → past_single p → AtSingle ∉ pcs σ;
  inv_clock : ∀ τ0 w p, t0 σ = Some τ0 → pcs σ !! w = Some p →
              worker_clock τ0 σ w p;
  inv_first : ∀ τ0, t0 σ = Some τ0 → log σ ≠ [] →
              τ0 + parallel_ns cfg + serial_ns cfg * Z.of_nat (length (log σ))
                ≤ now σ;
  inv_stop : ∀ τ0 τ1, t0 σ = Some τ0 → t1 σ = Some τ1 →
             (∀ w, (w < T)%nat →
                   τ0 + Z.of_nat (chunk_len (iters cfg) T w) * span ≤ τ1) ∧
             (log σ ≠ [] →
              τ0 + parallel_ns cfg + serial_ns cfg * Z.of_nat (length (log σ))
                ≤ τ1);
  inv_order : ∀ a b w i j, (a < b)%nat →
              log σ !! a = Some (w, i) → log σ !! b = Some (w, j) → (i < j)%nat
}.

Lemma Inv2_init start : Inv2 (init start).
Proof. split; simpl; done. Qed.

Lemma Inv2_tick d σ : 0 ≤ d → Inv2 σ → Inv2 (set_now (now σ + d) σ).
Proof.
  intros Hd [Hbar Hclock Hfirst Hstop Horder]. split; simpl; try done.
  - intros τ0 w p Ht0 Hw. specialize (Hclock τ0 w p Ht0 Hw).
    destruct p; simpl in *; lia.
  - intros τ0 Ht0 Hlog. specialize (Hfirst τ0 Ht0 Hlog). lia.
Qed.

Lemma not_elem_of_insert (ps : list pc) w q :
  AtSingle ∉ ps → q ≠ AtSingle → AtSingle ∉ <[w:=q]> ps.
Proof.
  intros Hps Hq [v Hv]%list_elem_of_lookup.
  destruct (decide (v = w)) as [->|Hne].
  - destruct (decide (w < length ps)%nat).
    + rewrite list_lookup_insert_eq in Hv by done. congruence.
    + rewrite list_insert_ge in Hv by lia. apply Hps. by eapply list_elem_of_lookup_2.
  - rewrite list_lookup_insert_ne in Hv by done.
    apply Hps. by eapply list_elem_of_lookup_2.
Qed.

Lemma Inv2_main σ σ' : Inv σ → Inv2 σ → main_step σ = Some σ' → Inv2 σ'.
Proof.
  intros HI [Hbar Hclock Hfirst Hstop Horder] Hstep.
  pose proof (inv_no_team _ HI) as Hno. pose proof (inv_joined _ HI) as Hjoin.
  pose proof (inv_team _ HI) as Hteam. pose proof (inv_t1 _ HI) as Ht1.
  unfold main_step in Hstep.
  destruct (main σ) eqn:Hm; try case_decide; simplify_option_eq;
    split; simpl; try done.
  - (* the timer is started: there is no team yet *)
    destruct Hno as (Hpcs & _); [lia|]. intros τ0 w p _. by rewrite Hpcs, lookup_nil.
  - destruct Hno as (_ & Hlog & _); [lia|]. intros τ0 _ Hne. by rewrite Hlog in Hne.
  - destruct (t1 σ); [lia|done].
  - (* the team is forked *)
    intros w p [-> _]%lookup_replicate [? _]. done.
  - intros τ0 w p _ [-> _]%lookup_replicate. done.
  - (* the timer is stopped: every worker is at the last barrier *)
    intros τ0 τ1 Ht0 [= <-]. split; [|by apply Hfirst].
    intros w Hw. rewrite <-Hteam in Hw by lia.
    destruct (lookup_lt_is_Some_2 _ _ Hw) as [p Hp].
    pose proof (Forall_lookup_1 _ _ _ _ (Hjoin ltac:(lia)) Hp) as ->.
    apply (Hclock τ0 w Finished Ht0 Hp).
  - (* the report is written *)
    intros τ0 w p Ht0. apply Hclock. congruence.
  - intros τ0 Ht0. apply Hfirst. congruence.
  - intros τ0 τ1 Ht0 Ht1'. apply Hstop; congruence.
Qed.

Lemma worker_clock_other τ0 σ σ' v q :
  now σ = now σ' →
  (length (log σ) = length (log σ') ∨ ¬ in_critical (Some q)) →
  worker_clock τ0 σ v q → worker_clock τ0 σ' v q.
Proof.
  intros Hnow Hlog. destruct q; simpl; rewrite <-?Hnow; try done.
  all: destruct Hlog as [<-|Hnc]; [done|by destruct Hnc].
Qed.

Lemma Inv2_worker w σ σ' : Inv σ → Inv2 σ → worker_step w σ = Some σ' → Inv2 σ'.
Proof.
  intros HI [Hbar Hclock Hfirst Hstop Horder] Hstep.
  pose proof (worker_step_running _ _ _ HI Hstep) as Hm.
  pose proof (inv_t0 _ HI) as Ht0. pose proof (inv_t1 _ HI) as Ht1.
  rewrite Hm in Ht0, Ht1. simpl in Ht1.
  destruct (t0 σ) as [τ0|] eqn:E0; [|done]. destruct Ht0 as [_ Hτ0].
  destruct (t1 σ) as [τ1|] eqn:E1; [lia|]. clear Ht1.
  unfold worker_step in Hstep.
  destruct (pcs σ !! w) as [p|] eqn:Hw; [|done]. simpl in Hstep.
  assert (w < length (pcs σ))%nat as Hlt by (by eapply lookup_lt_Some).
  pose proof (inv_bounds _ HI w p Hw) as Hbw.
  pose proof (Hclock τ0 w p eq_refl Hw) as Hcw.
  pose proof (inv_lock _ HI) as Hlock.
  pose proof (proj1 (Hlock w)) as Hlw. rewrite Hw in Hlw.
  assert (∀ q σ1, now σ1 = now σ →
            (length (log σ1) = length (log σ) ∨ in_critical (Some p)) →
            worker_clock τ0 σ1 w q →
            ∀ τ v r, Some τ0 = Some τ → <[w:=q]> (pcs σ) !! v = Some r →
                     worker_clock τ σ1 v r) as Hupd.
  { intros q σ1 Hnow Hlog Hq τ v r [= <-] Hv.
    destruct (decide (v = w)) as [->|Hne].
    - rewrite list_lookup_insert_eq in Hv by done. by simplify_eq.
    - rewrite list_lookup_insert_ne in Hv by done.
      apply (worker_clock_other τ0 σ); [done| |by apply Hclock].
      destruct Hlog as [Hlen|Hc]; [by left|right].
      intros Hr. rewrite <-Hv in Hr. apply Hlock in Hr.
      rewrite <-Hw in Hc. apply Hlock in Hc. congruence. }
  destruct p as [| |i|i wake|i|i wake|i|]; repeat case_match; simplify_eq;
    split; simpl; rewrite ?E0, ?E1; try done.
  all: try (apply Hupd; [done|by left|]; simpl in *;
            unfold behind, span, chunk_hi in *; lia).
  all: try (intros v q _ _; apply not_elem_of_insert; [|done];
            first [done|by apply (Hbar w _ Hw)]).
  - (* a worker that skips the [single] block *)
    unfold past_single. intros v q Hv [? ?]. destruct (decide (v = w)) as [->|Hne].
    + rewrite list_lookup_insert_eq in Hv by done. by simplify_eq.
    + rewrite list_lookup_insert_ne in Hv by done. exfalso.
      apply (Hbar v q Hv); [done|]. by eapply list_elem_of_lookup_2.
  - (* the worker that runs the [single] block *)
    unfold past_single. intros v q Hv [? ?]. destruct (decide (v = w)) as [->|Hne].
    + rewrite list_lookup_insert_eq in Hv by done. by simplify_eq.
    + rewrite list_lookup_insert_ne in Hv by done. exfalso.
      apply (Hbar v q Hv); [done|]. by eapply list_elem_of_lookup_2.
  - (* the loop is over *)
    apply Hupd; [done|by left|]. simpl in *.
    replace (Z.of_nat (chunk_len (iters cfg) T w)) with (behind w i); [done|].
    unfold behind, chunk_hi in *. lia.
  - (* the critical section is entered *)
    apply Hupd; [done|by left|]. simpl in *.
    split; [unfold behind, span in *; lia|].
    destruct (log σ) as [|e l] eqn:Hlog; [simpl; lia|].
    specialize (Hfirst τ0 eq_refl ltac:(done)). lia.
  - (* the critical section is left *)
    apply Hupd; [done|by right|]. simpl in *.
    unfold behind, span in *. lia.
  - intros τ [= <-] _. rewrite length_app. simpl in *. lia.
  - intros a b v k j Hab Ha Hb.
    apply lookup_app_Some in Ha as [Ha|[Hla Ha]];
      apply lookup_app_Some in Hb as [Hb|[Hlb Hb]].
    + by eapply Horder.
    + apply list_lookup_singleton_Some in Hb as [_ [= <- <-]].
      assert ((w, k) ∈ log σ) as Hin by (by eapply list_elem_of_lookup_2).
      apply (inv_log _ HI) in Hin as (p & Hp & Hk).
      rewrite Hw in Hp. simplify_eq. simpl in Hk. lia.
    + apply lookup_lt_Some in Hb. lia.
    + apply list_lookup_singleton_Some in Ha as [Ha _].
      apply list_lookup_singleton_Some in Hb as [Hb _]. lia.
Qed.

Lemma Inv2_run es σ σ' : Inv σ → Inv2 σ → run es σ = Some σ' → Inv2 σ'.
Proof.
  revert σ. induction es as [|e es IH]; intros σ HI HI2 Hrun; simplify_eq/=.
  - done.
  - destruct (exec e σ) as [σ1|] eqn:Hstep; [|done]. simpl in Hrun.
    apply (IH σ1); [by eapply Inv_exec| |done].
    destruct e as [d| |w]; simpl in Hstep.
    + case_decide; [|done]. simplify_eq. by apply Inv2_tick.
    + by eapply Inv2_main.
    + by eapply Inv2_worker.
Qed.

Lemma reachable_Inv2 σ : reachable σ → Inv2 σ.
Proof.
  intros (start & es & Hrun). eauto using Inv2_run, Inv_init, Inv2_init.
Qed.

(** No worker is in the loop while another one has not reached the barrier
    that ends [single], and by then [nt] holds the size of the team. *)
Lemma single_barrier σ w p :
  Inv σ → Inv2 σ → pcs σ !! w = Some p → past_single p →
  (AtSingle ∉ pcs σ) ∧ single_taken σ = true ∧ nt σ = Z.of_nat T.
Proof.
  intros HI HI2 Hw Hp. split; [by eapply inv_barrier|].
  assert (single_taken σ = true) as Hs.
  { apply (inv_single _ HI w p Hw). by destruct Hp. }
  split; [done|by apply (inv_nt _ HI)].
Qed.

(** The largest chunk, the one of worker [0], has at least [iters / T]
    iterations. *)
Lemma chunk_len_first n : (1 ≤ T)%nat → (n ≤ T * chunk_len n T 0)%nat.
Proof.
  intros HT. unfold chunk_len.
  pose proof (Nat.div_mod_eq n T). pose proof (Nat.mod_upper_bound n T ltac:(lia)).
  case_bool_decide; nia.
Qed.

(** The wall time covers the iterations of every single worker, and, when
    there is an iteration at all, the first sleep and then every critical
    section. *)
Lemma wall_floors σ τ0 τ1 :
  (1 ≤ T)%nat → Inv σ → Inv2 σ → t0 σ = Some τ0 → t1 σ = Some τ1 →
  (∀ w, (w < T)%nat → Z.of_nat (chunk_len (iters cfg) T w) * span ≤ τ1 - τ0) ∧
  ((1 ≤ iters cfg)%nat →
   parallel_ns cfg + Z.of_nat (iters cfg) * serial_ns cfg ≤ τ1 - τ0).
Proof.
  intros HT HI HI2 Ht0 Ht1.
  destruct (inv_stop _ HI2 τ0 τ1 Ht0 Ht1) as [Hpar Hser].
  split.
  - intros w Hw. specialize (Hpar w Hw). lia.
  - intros Hiters. pose proof (inv_t1 _ HI) as Hinv. rewrite Ht1 in Hinv.
    destruct Hinv as (Hph & _).
    pose proof (finished_log σ HT HI ltac:(lia) (inv_joined _ HI ltac:(lia)))
      as Hlog.
    apply Permutation_length in Hlog.
    rewrite length_fmap, length_seq in Hlog.
    assert (log σ ≠ []) as Hne by (intros E; rewrite E in Hlog; simpl in Hlog; lia).
    specialize (Hser Hne). rewrite Hlog in Hser. lia.
Qed.

(** ** The number of steps of a run *)

Fixpoint moves (es : list event) : nat :=
  match es with
  | [] => 0
  | Tick _ :: es' => moves es'
  | _ :: es' => S (moves es')
  end.

(** The steps a team has before it when it is forked. *)
Definition team_total : nat := sum_list (imap remaining (replicate T AtSingle)).

Definition total_measure (σ : state) : nat :=
  (5 - phase (main σ)) +
  (if decide (phase (main σ) < 2)%nat then team_total else team_measure σ).

Lemma worker_step_main w σ σ' : worker_step w σ = Some σ' → main σ' = main σ.
Proof.
  unfold worker_step. destruct (pcs σ !! w) as [p|]; [|done]. simpl.
  destruct p; repeat case_match; intros; simplify_eq/=; done.
Qed.

Lemma exec_measure e σ σ' :
  Inv σ → exec e σ = Some σ' →
  total_measure σ = (moves [e] + total_measure σ')%nat.
Proof.
  intros HI Hstep. destruct e as [d| |w]; simpl in *.
  - case_decide; [|done]. by simplify_eq.
  - unfold main_step in Hstep. unfold total_measure.
    pose proof (inv_no_team _ HI) as Hno.
    destruct (main σ) eqn:Hm; simpl in *; repeat case_decide;
      simplify_option_eq; try done; try lia.
  - pose proof (worker_step_running _ _ _ HI Hstep) as Hm.
    pose proof (worker_step_main _ _ _ Hstep) as Hm'.
    unfold total_measure. rewrite Hm', Hm. simpl.
    by rewrite (worker_step_measure w σ σ' HI Hstep).
Qed.

Lemma run_moves es σ σ' :
  Inv σ → run es σ = Some σ' →
  total_measure σ = (moves es + total_measure σ')%nat.
Proof.
  revert σ. induction es as [|e es IH]; intros σ HI Hrun; simplify_eq/=; [done|].
  destruct (exec e σ) as [σ1|] eqn:Hstep; [|done]. simpl in Hrun.
  rewrite (exec_measure e σ σ1 HI Hstep), (IH σ1); [|by eapply Inv_exec|done].
  destruct e; simpl; lia.
Qed.

Lemma finished_measure σ : finished σ → team_measure σ = 0%nat.
Proof.
  unfold finished, team_measure. generalize (pcs σ) as ps.
  assert (∀ (f : nat → pc → nat) ps, (∀ w, f w Finished = 0%nat) →
            Forall (λ p, p = Finished) ps → sum_list (imap f ps) = 0%nat) as H.
  { intros f ps. revert f. induction ps as [|p ps IH]; intros f Hf Hall; [done|].
    apply Forall_cons in Hall as [-> Hall]. simpl.
    rewrite Hf, IH; [done| |done]. intros w. apply Hf. }
  intros ps. by apply H.
Qed.

(** A run without a step of [main] or of a worker only lets time pass. *)
Lemma run_ticks es σ σ' :
  moves es = 0%nat → run es σ = Some σ' →
  main σ' = main σ ∧ pcs σ' = pcs σ ∧ log σ' = log σ ∧ out σ' = out σ ∧
  now σ ≤ now σ'.
Proof.
  revert σ. induction es as [|e es IH]; intros σ Hm Hrun; simpl in *.
  - simplify_eq. split_and!; try done; lia.
  - destruct e as [d| |w]; [|done|done]. simpl in Hrun.
    destruct (decide (0 ≤ d)) as [Hd|]; [|done]. simpl in Hrun.
    destruct (IH _ Hm Hrun) as (-> & -> & -> & -> & Hnow). simpl in *.
    split_and!; try done; lia.
Qed.

(** A move of [main] or of a worker, with time passing before and after
    it. *)
Definition advance (σ' σ : state) : Prop :=
  ∃ es, moves es = 1%nat ∧ run es σ = Some σ'.

(** However time passes between them, only finitely many moves can follow
    one another. *)
Lemma advance_Acc σ : Inv σ → Acc advance σ.
Proof.
  remember (total_measure σ) as m eqn:Hm. revert σ Hm.
  induction m as [m IH] using lt_wf_ind. intros σ -> HI.
  constructor. intros σ' (es & Hmv & Hrun).
  pose proof (run_moves _ _ _ HI Hrun) as Hsteps.
  apply (IH (total_measure σ')); [lia|done|by eapply Inv_run].
Qed.

Lemma finished_unlocked σ : Inv σ → finished σ → lock σ = None.
Proof.
  intros HI Hfin. destruct (lock σ) as [w|] eqn:Hl; [|done].
  apply (inv_lock _ HI) in Hl. unfold in_critical in Hl.
  destruct (pcs σ !! w) as [p|] eqn:Hw; [|done].
  assert (p = Finished) as -> by (by eapply (Forall_lookup_1 _ _ _ _ Hfin)).
  done.
Qed.

End Steps.

(** A small instance: two iterations, two workers.  In [sample_run] both
    workers sleep through the parallel phase together and then take the
    critical section one after the other. *)
Definition small : config := Config 2 2000000 5000000.

Definition sample_run : list event :=
  [Main; Main; Worker 0; Worker 1; Worker 0; Worker 1; Worker 0; Worker 1;
   Tick 2000000; Worker 0; Worker 1; Worker 0;
   Tick 5000000; Worker 0; Worker 0; Worker 1;
   Tick 5000000; Worker 1; Worker 1; Worker 0; Worker 1;
   Main; Main; Main]%nat.

(** After twelve events worker 0 is inside the critical section and worker 1
    waits for it. *)
Definition sample_contended : state :=
  Eval vm_compute in default (init 0) (run small 2 (take 12 sample_run) (init 0)).

Definition sample_final : state :=
  Eval vm_compute in default (init 0) (run small 2 sample_run (init 0)).

(** The same two iterations run by one worker. *)
Definition sample_run_one : list event :=
  [Main; Main; Worker 0; Worker 0;
   Worker 0; Tick 2000000; Worker 0; Worker 0; Tick 5000000; Worker 0; Worker 0;
   Worker 0; Tick 2000000; Worker 0; Worker 0; Tick 5000000; Worker 0; Worker 0;
   Worker 0; Main; Main; Main]%nat.

Definition sample_final_one : state :=
  Eval vm_compute in default (init 0) (run small 1 sample_run_one (init 0)).

Definition sample_report : report :=
  Eval vm_compute in default (MkReport 0 0 0 0 0) (out sample_final).

End Bottleneck.

(** * [omp_01_amdahl.cpp]: the region that reads the number of threads

    [int nt = 0;] followed by [#pragma omp parallel], [#pragma omp single],
    [nt = omp_get_num_threads();]: the first worker that reaches [single]
    is chosen for the block and runs the assignment, the others go on to
    the barrier that ends [single] and wait there, also while the
    assignment is still to come; then the region ends. *)
Module CountRegion.
Import Team.

Inductive pc : Type :=
| AtSingle      (* at [#pragma omp single] *)
| InSingle      (* chosen for the block, the assignment not yet run *)
| AtBarrier     (* at the barrier that ends [single] *)
| Done.         (* at the end of the region *)

Global Instance pc_eq_dec : EqDecision pc.
Proof. solve_decision. Defined.

Record state := State {
  pcs : list pc;
  nt : Z;                 (* the variable [nt] of [main] *)
  taken : bool;           (* a worker has been chosen for the block *)
  writers : list nat      (* the workers that have assigned [nt] *)
}.

Definition worker_step (w : nat) (σ : state) : option state :=
  p ← pcs σ !! w;
  match p with
  | AtSingle =>
      if taken σ
      then Some (State (<[w := AtBarrier]> (pcs σ)) (nt σ) true (writers σ))
      else Some (State (<[w := InSingle]> (pcs σ)) (nt σ) true (writers σ))
  | InSingle =>
      Some (State (<[w := AtBarrier]> (pcs σ))
                  (Z.of_nat (length (pcs σ))) (taken σ) (writers σ ++ [w]))
  | AtBarrier =>
      if decide (AtSingle ∈ pcs σ ∨ InSingle ∈ pcs σ) then None
      else Some (State (<[w := Done]> (pcs σ)) (nt σ) (taken σ) (writers σ))
  | Done => None
  end.

Definition init (T : nat) : state := State (replicate T AtSingle) 0 false [].

Fixpoint run (sched : list nat) (σ : state) : option state :=
  match sched with
  | [] => Some σ
  | w :: sched' => σ' ← worker_step w σ; run sched' σ'
  end.

Definition reachable (T : nat) (σ : state) : Prop :=
  ∃ sched, run sched (init T) = Some σ.

Definition finished (σ : state) : Prop := Forall (λ p, p = Done) (pcs σ).

Global Instance finished_dec σ : Decision (finished σ).
Proof. unfold finished. apply _. Defined.

(** Two workers: worker 0 is chosen, worker 1 goes on to the barrier, and
    only then worker 0 assigns [nt]. *)
Definition sample_run : list nat := [0; 1; 0; 1; 0]%nat.

(** After the first two steps worker 1 waits at the barrier and [nt] is
    still [0]. *)
Definition sample_waiting : state :=
  Eval vm_compute in default (init 2) (run (take 2 sample_run) (init 2)).

Definition sample_final : state :=
  Eval vm_compute in default (init 2) (run sample_run (init 2)).

Definition remaining (p : pc) : nat :=
  match p with AtSingle => 3 | InSingle => 2 | AtBarrier => 1 | Done => 0 end.

Definition measure (σ : state) : nat := sum_list (remaining <$> pcs σ).

Record Inv (T : nat) (σ : state) : Prop := {
  inv_team : length (pcs σ) = T;
  inv_fresh : taken σ = false →
              writers σ = [] ∧ nt σ = 0 ∧ Forall (λ p, p = AtSingle) (pcs σ);
  inv_chosen : ∀ w, pcs σ !! w = Some InSingle →
               taken σ = true ∧ writers σ = [] ∧ nt σ = 0 ∧
               ∀ v, pcs σ !! v = Some InSingle → v = w;
  inv_set : taken σ = true → InSingle ∉ pcs σ →
            nt σ = Z.of_nat T ∧ ∃ w, writers σ = [w] ∧ (w < T)%nat;
  inv_barrier : ∀ w, pcs σ !! w = Some Done →
                (AtSingle ∉ pcs σ) ∧ (InSingle ∉ pcs σ)
}.

Lemma count_Inv_init T : Inv T (init T).
Proof.
  split; simpl; try done.
  - apply length_replicate.
  - intros _. split_and!; try done. by apply Forall_replicate.
  - intros w [? _]%lookup_replicate. done.
  - intros w [? _]%lookup_replicate. done.
Qed.

Lemma count_not_elem_of_insert (ps : list pc) w q r :
  r ∉ ps → q ≠ r → r ∉ <[w:=q]> ps.
Proof.
  intros Hps Hq [v Hv]%list_elem_of_lookup.
  destruct (decide (v = w)) as [->|Hne].
  - destruct (decide (w < length ps)%nat).
    + rewrite list_lookup_insert_eq in Hv by done. congruence.
    + rewrite list_insert_ge in Hv by lia. apply Hps. by eapply list_elem_of_lookup_2.
  - rewrite list_lookup_insert_ne in Hv by done.
    apply Hps. by eapply list_elem_of_lookup_2.
Qed.

(** A position other than the one that is overwritten keeps its entry. *)
Lemma count_lookup_insert_other (ps : list pc) w q r v :
  q ≠ r → <[w:=q]> ps !! v = Some r → v ≠ w ∧ ps !! v = Some r.
Proof.
  intros Hq Hv. destruct (decide (v = w)) as [->|Hne].
  - destruct (decide (w < length ps)%nat).
    + rewrite list_lookup_insert_eq in Hv by done. congruence.
    + apply lookup_lt_Some in Hv. rewrite length_insert in Hv. lia.
  - by rewrite list_lookup_insert_ne in Hv by done.
Qed.

Lemma count_elem_of_insert_other (ps : list pc) w p q r :
  ps !! w = Some p → p ≠ r → r ∈ ps → r ∈ <[w:=q]> ps.
Proof.
  intros Hw Hp [v Hv]%list_elem_of_lookup.
  apply (list_elem_of_lookup_2 _ v).
  rewrite list_lookup_insert_ne; [done|]. intros ->. congruence.
Qed.

Lemma count_Inv_step T w σ σ' :
  Inv T σ → worker_step w σ = Some σ' → Inv T σ'.
Proof.
  intros [Hteam Hfresh Hchosen Hset Hbar]. unfold worker_step.
  destruct (pcs σ !! w) as [p|] eqn:Hw; [|done]. simpl.
  assert (w < length (pcs σ))%nat as Hlt by (by eapply lookup_lt_Some).
  assert (w < T)%nat as HwT by lia.
  pose proof (list_elem_of_lookup_2 _ _ _ Hw) as Hin.
  destruct p; [destruct (taken σ) eqn:Ht| |case_decide as Hwait; [done|]|done];
    intros ?; simplify_eq; split; simpl; rewrite ?length_insert; try done.
  - (* another worker has been chosen: on to the barrier *)
    intros v [Hne Hv]%count_lookup_insert_other; [|done].
    destruct (Hchosen v Hv) as (? & ? & ? & Huniq). split_and!; try done.
    intros u [_ Hu]%count_lookup_insert_other; [|done]. by apply Huniq.
  - intros _ Hnone. apply Hset; [done|]. intros Hold. apply Hnone.
    by eapply count_elem_of_insert_other.
  - intros v [_ Hv]%count_lookup_insert_other; [|done].
    by destruct (Hbar v Hv) as [Hno _].
  - (* this worker is chosen *)
    destruct (Hfresh eq_refl) as (Hwr & Hnt & Hall).
    intros v Hv. split_and!; try done.
    assert (∀ u, <[w:=InSingle]> (pcs σ) !! u = Some InSingle → u = w) as Honly.
    { intros u Hu. destruct (decide (u = w)) as [|Hne]; [done|].
      rewrite list_lookup_insert_ne in Hu by done.
      by pose proof (Forall_lookup_1 _ _ _ _ Hall Hu). }
    intros u Hu. by rewrite (Honly u Hu), (Honly v Hv).
  - intros _ Hnone. exfalso. apply Hnone.
    apply (list_elem_of_lookup_2 _ w). by rewrite list_lookup_insert_eq.
  - intros v [_ Hv]%count_lookup_insert_other; [|done].
    by destruct (Hbar v Hv) as [Hno _].
  - (* the assignment *)
    destruct (Hchosen w Hw) as (Ht & _). congruence.
  - intros v [Hne Hv]%count_lookup_insert_other; [|done].
    destruct (Hchosen w Hw) as (_ & _ & _ & Huniq). by destruct (Huniq v Hv).
  - intros _ _. destruct (Hchosen w Hw) as (_ & -> & _). split; [done|].
    by exists w.
  - intros v [_ Hv]%count_lookup_insert_other; [|done].
    by destruct (Hbar v Hv) as [_ Hno].
  - (* the barrier opens *)
    intros Ht. destruct (Hfresh Ht) as (_ & _ & Hall).
    by pose proof (Forall_lookup_1 _ _ _ _ Hall Hw).
  - intros v [_ Hv]%count_lookup_insert_other; [|done].
    exfalso. apply Hwait. right. by eapply list_elem_of_lookup_2.
  - intros Ht _. apply Hset; [done|]. tauto.
  - intros v _. split; apply count_not_elem_of_insert; try done; tauto.
Qed.

Lemma count_Inv_run T sched σ σ' :
  Inv T σ → run sched σ = Some σ' → Inv T σ'.
Proof.
  revert σ. induction sched as [|w sched IH]; intros σ HI Hrun; simplify_eq/=.
  - done.
  - destruct (worker_step w σ) as [σ1|] eqn:Hstep; [|done].
    eauto using count_Inv_step.
Qed.

Lemma count_reachable_Inv T σ : reachable T σ → Inv T σ.
Proof. intros [sched Hrun]. eauto using count_Inv_run, count_Inv_init. Qed.

Lemma count_step_measure w σ σ' :
  worker_step w σ = Some σ' → (measure σ' < measure σ)%nat.
Proof.
  unfold worker_step, measure.
  destruct (pcs σ !! w) as [p|] eqn:Hw; [|done]. simpl.
  destruct p; [destruct (taken σ)| |case_decide; [done|]|done];
    intros ?; simplify_eq; simpl;
    match goal with
    | |- context [<[w:=?q]> _] =>
        pose proof (sum_insert remaining (pcs σ) w _ q Hw)
    end; simpl in *; lia.
Qed.

Lemma count_progress σ : ¬ finished σ → ∃ w, is_Some (worker_step w σ).
Proof.
  intros Hnf. apply not_Forall_Exists in Hnf; [|apply _].
  apply Exists_exists in Hnf as (p & Hp & Hnd).
  apply list_elem_of_lookup in Hp as [w Hw].
  destruct (decide (AtSingle ∈ pcs σ)) as [Hs|Hs].
  { apply list_elem_of_lookup in Hs as [v Hv]. exists v.
    unfold worker_step. rewrite Hv. simpl. destruct (taken σ); eauto. }
  destruct (decide (InSingle ∈ pcs σ)) as [Hi|Hi].
  { apply list_elem_of_lookup in Hi as [v Hv]. exists v.
    unfold worker_step. rewrite Hv. simpl. eauto. }
  exists w. unfold worker_step. rewrite Hw. simpl.
  destruct p; [| |rewrite decide_False by tauto; eauto|by destruct Hnd].
  - exfalso. apply Hs. by eapply list_elem_of_lookup_2.
  - exfalso. apply Hi. by eapply list_elem_of_lookup_2.
Qed.

Lemma count_completes σ : ∃ sched σ', run sched σ = Some σ' ∧ finished σ'.
Proof.
  remember (measure σ) as m eqn:Hm. revert σ Hm.
  induction m as [m IH] using lt_wf_ind. intros σ ->.
  destruct (decide (finished σ)) as [Hfin|Hnf]; [by exists [], σ|].
  destruct (count_progress σ Hnf) as [w [σ1 Hstep]].
  destruct (IH (measure σ1)) with (σ := σ1) as (sched & σ' & Hrun & Hfin);
    [by eapply count_step_measure|done|].
  exists (w :: sched), σ'. simpl. by rewrite Hstep.
Qed.

(** When the region is over [nt] is the size of the team, assigned once. *)
Lemma count_finished T σ :
  (1 ≤ T)%nat → Inv T σ → finished σ →
  nt σ = Z.of_nat T ∧ length (writers σ) = 1%nat.
Proof.
  intros HT HI Hfin.
  assert (0 < length (pcs σ))%nat as Hlen by (rewrite (inv_team _ _ HI); lia).
  destruct (lookup_lt_is_Some_2 _ _ Hlen) as [p Hp].
  pose proof (Forall_lookup_1 _ _ _ _ Hfin Hp) as ->.
  destruct (inv_barrier _ _ HI _ Hp) as [_ Hnone].
  destruct (taken σ) eqn:Ht.
  - destruct (inv_set _ _ HI Ht Hnone) as (Hnt & w & -> & _). done.
  - destruct (inv_fresh _ _ HI Ht) as (_ & _ & Hall).
    by pose proof (Forall_lookup_1 _ _ _ _ Hall Hp).
Qed.

(** [nt] is never assigned twice: it is [0] until the assignment and the
    size of the team from then on; and no worker leaves the barrier before
    the assignment. *)
Lemma count_once T σ :
  Inv T σ →
  (length (writers σ) ≤ 1)%nat ∧
  (nt σ = 0 ∨ nt σ = Z.of_nat T) ∧
  (∀ w, pcs σ !! w = Some Done → nt σ = Z.of_nat T).
Proof.
  intros HI. destruct (taken σ) eqn:Ht.
  - destruct (decide (InSingle ∈ pcs σ)) as [Hin|Hnone].
    + apply list_elem_of_lookup in Hin as [v Hv].
      destruct (inv_chosen _ _ HI v Hv) as (_ & -> & -> & _).
      split_and!; [simpl; lia|by left|].
      intros w Hw. destruct (inv_barrier _ _ HI w Hw) as [_ Hno].
      exfalso. apply Hno. by eapply list_elem_of_lookup_2.
    + destruct (inv_set _ _ HI Ht Hnone) as (Hnt & w & -> & _).
      split_and!; [simpl; lia|by right|done].
  - destruct (inv_fresh _ _ HI Ht) as (-> & -> & Hall).
    split_and!; [simpl; lia|by left|].
    intros w Hw. by pose proof (Forall_lookup_1 _ _ _ _ Hall Hw).
Qed.

End CountRegion.

(** * The claims *)

(** C10: for [n <= 0] the loops of [serial_work] and of [parallel_work] run
    no iteration and both functions return [0.0] exactly, for any number of
    workers and any order in which they reach the reduction. *)
Theorem work_empty_range (std_sin std_cos : float → float)
    (T : nat) (order : list nat) (n : Z) :
  n ≤ 0 →
  Amdahl.serial_work std_sin n = Some PrimFloat.zero ∧
  Amdahl.parallel_work std_cos T order n = Some PrimFloat.zero.
Proof.
  intros Hn. split.
  - rewrite Amdahl.serial_work_fold. unfold Amdahl.serial_sum, Amdahl.ascending.
    by rewrite seqZ_nil by lia.
  - unfold Amdahl.parallel_work. rewrite Amdahl.parallel_acc_fold.
    replace (Z.to_nat n) with 0%nat by lia.
    rewrite (list_fmap_ext _ (λ _, PrimFloat.zero) order).
    + by rewrite Amdahl.fold_zeros.
    + intros _ t _. by rewrite Schedule.chunk_empty.
Qed.

Lemma work_empty_range_witness :
  (-3 ≤ 0) ∧
  Amdahl.serial_work PrimFloat.sqrt (-3) = Some PrimFloat.zero ∧
  Amdahl.parallel_work PrimFloat.sqrt 4 [2; 0; 3; 1]%nat (-3) = Some PrimFloat.zero.
Proof.
  split; [lia|].
  apply (work_empty_range PrimFloat.sqrt PrimFloat.sqrt 4 [2; 0; 3; 1]%nat (-3)).
  lia.
Defined.

(** C2: [serial_work n] returns, for every [n], the accumulation of
    [sin(i * 1e-6)] over [0 <= i < n]: the terms added to [0.0] one after
    the other for [i = 0, 1, ..., n - 1] (the loop visits exactly these
    indices, in strictly ascending order); it is a function of [n] alone,
    and [main] reports the same [a] whatever the number of workers and the
    order in which they finish. *)
Theorem serial_work_sequential (std_sin std_cos : float → float)
    (n : Z) (T : nat) (order : list nat) :
  Amdahl.serial_work std_sin n
    = Some (Amdahl.sine_accumulation std_sin (Z.to_nat n)) ∧
  Amdahl.serial_work_trace n = Some (Amdahl.ascending 0 n) ∧
  StronglySorted Z.lt (Amdahl.ascending 0 n) ∧
  ∃ b, Amdahl.amdahl_main std_sin std_cos T order =
       Some (Amdahl.AmdahlOutput T
               (Amdahl.sine_accumulation std_sin (Z.to_nat Amdahl.Nserial)) b).
Proof.
  split_and!.
  - by rewrite Amdahl.serial_work_fold, Amdahl.serial_sum_spec.
  - apply Amdahl.serial_work_trace_ascending.
  - apply Amdahl.ascending_sorted.
  - unfold Amdahl.amdahl_main.
    rewrite Amdahl.serial_work_fold, Amdahl.serial_sum_spec.
    destruct (Amdahl.parallel_work_terminates std_cos T order Amdahl.Npar)
      as [b ->].
    by exists b.
Qed.

(** C3: in every reachable state of the simulator, whatever the number of
    workers and the interleaving, two distinct workers are never both
    inside the critical section. *)
Theorem simulator_mutual_exclusion (cfg : Bottleneck.config) (T : nat)
    (σ : Bottleneck.state) (w1 w2 : nat) :
  Bottleneck.reachable cfg T σ → w1 ≠ w2 →
  ¬ (Bottleneck.in_critical (Bottleneck.pcs σ !! w1) ∧
     Bottleneck.in_critical (Bottleneck.pcs σ !! w2)).
Proof.
  intros Hreach Hne [H1 H2]. apply Hne.
  eapply Bottleneck.critical_exclusive; eauto using Bottleneck.reachable_Inv.
Qed.

Lemma simulator_mutual_exclusion_witness :
  Bottleneck.in_critical (Bottleneck.pcs Bottleneck.sample_contended !! 0%nat) ∧
  ¬ (Bottleneck.in_critical (Bottleneck.pcs Bottleneck.sample_contended !! 0%nat) ∧
     Bottleneck.in_critical (Bottleneck.pcs Bottleneck.sample_contended !! 1%nat)).
Proof.
  split; [exact I|].
  apply (simulator_mutual_exclusion Bottleneck.small 2
           Bottleneck.sample_contended 0 1).
  - exists 0, (take 12 Bottleneck.sample_run). vm_compute. reflexivity.
  - lia.
Defined.





(** C6, as the code has it: the contention run and the probe run enter one
    parallel region, and the contention run goes through
    NotStarted, Running, Joined, Reported: in every execution what [main]
    has done so far is a prefix of this sequence, with at most one region
    entered.  The Amdahl run enters two regions, the first one only to read
    the number of threads; from the start of its timer on it enters one
    region and goes through the four states. *)
Theorem runner_regions (cfg : Bottleneck.config) (T : nat)
    (σ : Bottleneck.state) :
  Bottleneck.reachable cfg T σ →
  Runner.regions_entered Runner.warmup_main = 1%nat ∧
  Runner.regions_entered Runner.bottleneck_main = 1%nat ∧
  Runner.run_machine Runner.NotStarted Runner.bottleneck_main
    = Some Runner.Reported ∧
  Bottleneck.history σ =
    take (Bottleneck.phase (Bottleneck.main σ)) Runner.bottleneck_main ∧
  (Runner.regions_entered (Bottleneck.history σ) ≤ 1)%nat ∧
  is_Some (Runner.run_machine Runner.NotStarted (Bottleneck.history σ)) ∧
  Runner.regions_entered Runner.amdahl_main = 2%nat ∧
  Runner.regions_entered (Runner.timed_part Runner.amdahl_main) = 1%nat ∧
  Runner.run_machine Runner.NotStarted (Runner.timed_part Runner.amdahl_main)
    = Some Runner.Reported.
Proof.
  intros HI%Bottleneck.reachable_Inv.
  pose proof (Bottleneck.inv_history _ _ _ HI) as Hhist.
  split_and!; try reflexivity; try done.
  - rewrite Hhist. destruct (Bottleneck.main σ); vm_compute; lia.
  - rewrite Hhist. destruct (Bottleneck.main σ); vm_compute; eauto.
Qed.

Lemma runner_regions_witness :
  Bottleneck.history Bottleneck.sample_final = Runner.bottleneck_main.
Proof.
  apply (runner_regions Bottleneck.small 2 Bottleneck.sample_final).
  exists 0, Bottleneck.sample_run. vm_compute. reflexivity.
Defined.

(** C6 as stated fails on the Amdahl run: it enters two parallel regions,
    and the second one is entered after the first one has joined. *)
Lemma amdahl_enters_two_regions :
  Runner.regions_entered Runner.amdahl_main ≠ 1%nat ∧
  Runner.run_machine Runner.NotStarted Runner.amdahl_main
    ≠ Some Runner.Reported.
Proof. split; vm_compute; discriminate. Qed.




(** C8, as the code has it: the Probe reports once per worker.  At most one
    worker at a time is inside the critical section that writes the line,
    the number of lines written is the number of workers that have left
    [printf] behind, and at the end of a region of [T] workers each worker's
    line has been written exactly once, [T] lines in all. *)
Theorem probe_reports_once_per_worker (T : nat) (σ : Warmup.state) :
  Warmup.reachable T σ →
  (∀ w1 w2, Warmup.in_critical (Warmup.pcs σ !! w1) →
            Warmup.in_critical (Warmup.pcs σ !! w2) → w1 = w2) ∧
  length (Warmup.out σ) =
    length (Team.positions Warmup.has_printed (Warmup.pcs σ)) ∧
  (length (Warmup.out σ) ≤ T)%nat ∧
  (Warmup.finished σ →
   length (Warmup.out σ) = T ∧
   ∀ w, (w < T)%nat →
        count_occ Stdlib.Strings.String.string_dec (Warmup.out σ)
          (Warmup.hello_line (Z.of_nat w) (Z.of_nat T)) = 1%nat).
Proof.
  intros HI%Warmup.probe_reachable_Inv.
  destruct (Warmup.out_length T σ HI) as [Hlen Hle].
  split_and!; try done.
  - intros w1 w2. by apply (Warmup.probe_critical_exclusive T).
  - intros Hfin. split.
    + by apply Warmup.finished_lines.
    + intros w Hw. by apply Warmup.finished_line_once.
Qed.

Lemma probe_reports_once_per_worker_witness :
  length (Warmup.out Warmup.sample_final) = 2%nat ∧
  count_occ Stdlib.Strings.String.string_dec
    (Warmup.out Warmup.sample_final) (Warmup.hello_line 1 2) = 1%nat.
Proof.
  destruct (probe_reports_once_per_worker 2 Warmup.sample_final)
    as (_ & _ & _ & Hend).
  - exists Warmup.sample_run. vm_compute. reflexivity.
  - destruct Hend as [Hlen Honce].
    + vm_compute. repeat constructor.
    + split; [exact Hlen|]. apply (Honce 1%nat). lia.
Defined.

(** C8 as stated fails: a region of two workers ends with two reports, not
    one. *)
Lemma probe_reports_twice :
  ∃ σ, Warmup.reachable 2 σ ∧ Warmup.finished σ ∧ length (Warmup.out σ) ≠ 1%nat.
Proof.
  exists Warmup.sample_final. split_and!.
  - exists Warmup.sample_run. vm_compute. reflexivity.
  - vm_compute. repeat constructor.
  - vm_compute. discriminate.
Qed.

(** C9: with [T >= 1] workers every run of the simulator can be completed,
    and the wall time it reports, the difference of the two clock readings,
    is at least [iters] times the duration of the serialized phase; the
    report names the [T] threads. *)
Theorem contention_floor (cfg : Bottleneck.config) (T : nat)
    (σ : Bottleneck.state) :
  (1 ≤ T)%nat → Bottleneck.reachable cfg T σ →
  (∃ es σ' r, Bottleneck.run cfg T es σ = Some σ' ∧
              Bottleneck.out σ' = Some r) ∧
  (∀ r, Bottleneck.out σ = Some r →
        Z.of_nat (Bottleneck.iters cfg) * Bottleneck.serial_ns cfg
          ≤ Bottleneck.rep_wall r ∧
        Bottleneck.rep_threads r = Z.of_nat T).
Proof.
  intros HT HI%Bottleneck.reachable_Inv. split.
  - destruct (Bottleneck.completes cfg T σ HI) as (es & σ' & Hrun & Hm).
    pose proof (Bottleneck.Inv_run _ _ _ _ _ HI Hrun) as HI'.
    pose proof (Bottleneck.inv_out _ _ _ HI') as Hout. rewrite Hm in Hout.
    destruct (Bottleneck.out σ') as [r|] eqn:Hr; [by eauto|simpl in Hout; lia].
  - intros r Hr.
    destruct (Bottleneck.report_sound cfg T σ r HT HI Hr) as (? & ? & _).
    done.
Qed.

Lemma contention_floor_witness :
  2 * 5000000 ≤ Bottleneck.rep_wall Bottleneck.sample_report ∧
  Bottleneck.rep_threads Bottleneck.sample_report = 2.
Proof.
  apply (contention_floor Bottleneck.small 2 Bottleneck.sample_final).
  - lia.
  - exists 0, Bottleneck.sample_run. vm_compute. reflexivity.
  - reflexivity.
Defined.

(** * Further properties of the three programs *)

(** X1: in the region of [omp_01_amdahl.cpp] that reads the number of
    threads, [nt] is assigned at most once: it is [0] until the assignment
    and the size [T] of the team from then on.  A worker can wait at the
    barrier while [nt] is still [0], but none leaves the barrier before the
    assignment.  Every run of the region can be completed, and when a
    region of [T >= 1] workers is over [nt] is [T], assigned exactly
    once. *)
Theorem thread_count_assigned_once (T : nat) (σ : CountRegion.state) :
  CountRegion.reachable T σ →
  (length (CountRegion.writers σ) ≤ 1)%nat ∧
  (CountRegion.nt σ = 0 ∨ CountRegion.nt σ = Z.of_nat T) ∧
  (∀ w, CountRegion.pcs σ !! w = Some CountRegion.Done →
        CountRegion.nt σ = Z.of_nat T) ∧
  (∃ sched σ', CountRegion.run sched σ = Some σ' ∧ CountRegion.finished σ') ∧
  ((1 ≤ T)%nat → CountRegion.finished σ →
   CountRegion.nt σ = Z.of_nat T ∧
   length (CountRegion.writers σ) = 1%nat).
Proof.
  intros HI%CountRegion.count_reachable_Inv.
  destruct (CountRegion.count_once T σ HI) as (Honce & Hval & Hleft).
  split_and!; [done|done|done|apply CountRegion.count_completes|].
  intros HT Hfin. by apply CountRegion.count_finished.
Qed.

Lemma thread_count_assigned_once_witness :
  CountRegion.pcs CountRegion.sample_waiting !! 1%nat
    = Some CountRegion.AtBarrier ∧
  CountRegion.nt CountRegion.sample_waiting = 0 ∧
  CountRegion.nt CountRegion.sample_final = 2 ∧
  length (CountRegion.writers CountRegion.sample_final) = 1%nat.
Proof.
  split; [reflexivity|]. split; [reflexivity|].
  destruct (thread_count_assigned_once 2 CountRegion.sample_final)
    as (_ & _ & _ & _ & Hend).
  - exists CountRegion.sample_run. vm_compute. reflexivity.
  - apply Hend.
    + lia.
    + vm_compute. repeat constructor.
Defined.

(** X2: in the simulator no worker is past the barrier that ends [single]
    while another worker has not yet arrived at [single], and from then on
    [nt] holds the size of the team. *)
Theorem simulator_single_barrier (cfg : Bottleneck.config) (T : nat)
    (σ : Bottleneck.state) (w : nat) (p : Bottleneck.pc) :
  Bottleneck.reachable cfg T σ →
  Bottleneck.pcs σ !! w = Some p → Bottleneck.past_single p →
  (Bottleneck.AtSingle ∉ Bottleneck.pcs σ) ∧
  Bottleneck.single_taken σ = true ∧ Bottleneck.nt σ = Z.of_nat T.
Proof.
  intros Hreach. apply (Bottleneck.single_barrier cfg T).
  - by apply Bottleneck.reachable_Inv.
  - by apply Bottleneck.reachable_Inv2.
Qed.

Lemma simulator_single_barrier_witness :
  (Bottleneck.AtSingle ∉ Bottleneck.pcs Bottleneck.sample_contended) ∧
  Bottleneck.single_taken Bottleneck.sample_contended = true ∧
  Bottleneck.nt Bottleneck.sample_contended = 2.
Proof.
  apply (simulator_single_barrier Bottleneck.small 2
           Bottleneck.sample_contended 1 (Bottleneck.AtCritical 1)).
  - exists 0, (take 12 Bottleneck.sample_run). vm_compute. reflexivity.
  - reflexivity.
  - split; discriminate.
Defined.

(** X3: the wall time the simulator reports covers the iterations of every
    single worker, each of which takes the two sleeps one after the other;
    so [T] workers are at most [T] times faster than the two sleeps of all
    iterations in a row. *)
Theorem simulator_parallel_floor (cfg : Bottleneck.config) (T : nat)
    (σ : Bottleneck.state) (r : Bottleneck.report) :
  (1 ≤ T)%nat → Bottleneck.reachable cfg T σ → Bottleneck.out σ = Some r →
  (∀ w, (w < T)%nat →
        Z.of_nat (Schedule.chunk_len (Bottleneck.iters cfg) T w)
          * (Bottleneck.parallel_ns cfg + Bottleneck.serial_ns cfg)
        ≤ Bottleneck.rep_wall r) ∧
  (0 ≤ Bottleneck.parallel_ns cfg + Bottleneck.serial_ns cfg →
   Z.of_nat (Bottleneck.iters cfg)
     * (Bottleneck.parallel_ns cfg + Bottleneck.serial_ns cfg)
   ≤ Z.of_nat T * Bottleneck.rep_wall r).
Proof.
  intros HT Hreach Hr.
  pose proof (Bottleneck.reachable_Inv _ _ _ Hreach) as HI.
  pose proof (Bottleneck.reachable_Inv2 _ _ _ Hreach) as HI2.
  destruct (Bottleneck.report_sound cfg T σ r HT HI Hr)
    as (_ & _ & τ0 & τ1 & Ht0 & Ht1 & ->).
  destruct (Bottleneck.wall_floors cfg T σ τ0 τ1 HT HI HI2 Ht0 Ht1)
    as [Hpar _].
  split; [exact Hpar|]. intros Hspan.
  specialize (Hpar 0%nat ltac:(lia)).
  pose proof (Bottleneck.chunk_len_first T (Bottleneck.iters cfg) HT) as Hlen.
  unfold Bottleneck.span in Hpar. nia.
Qed.

Lemma simulator_parallel_floor_witness :
  2 * (2000000 + 5000000) ≤ 2 * Bottleneck.rep_wall Bottleneck.sample_report.
Proof.
  destruct (simulator_parallel_floor Bottleneck.small 2
              Bottleneck.sample_final Bottleneck.sample_report)
    as [_ Hall].
  - lia.
  - exists 0, Bottleneck.sample_run. vm_compute. reflexivity.
  - reflexivity.
  - apply Hall. vm_compute. discriminate.
Defined.

(** X4: when there is at least one iteration, the wall time the simulator
    reports is at least one parallel sleep followed by the serialized sleeps
    of all iterations: no critical section is entered before a first sleep
    is over. *)
Theorem simulator_first_sleep_floor (cfg : Bottleneck.config) (T : nat)
    (σ : Bottleneck.state) (r : Bottleneck.report) :
  (1 ≤ T)%nat → (1 ≤ Bottleneck.iters cfg)%nat →
  Bottleneck.reachable cfg T σ → Bottleneck.out σ = Some r →
  Bottleneck.parallel_ns cfg
    + Z.of_nat (Bottleneck.iters cfg) * Bottleneck.serial_ns cfg
  ≤ Bottleneck.rep_wall r.
Proof.
  intros HT Hiters Hreach Hr.
  pose proof (Bottleneck.reachable_Inv _ _ _ Hreach) as HI.
  pose proof (Bottleneck.reachable_Inv2 _ _ _ Hreach) as HI2.
  destruct (Bottleneck.report_sound cfg T σ r HT HI Hr)
    as (_ & _ & τ0 & τ1 & Ht0 & Ht1 & ->).
  destruct (Bottleneck.wall_floors cfg T σ τ0 τ1 HT HI HI2 Ht0 Ht1)
    as [_ Hser].
  by apply Hser.
Qed.

Lemma simulator_first_sleep_floor_witness :
  2000000 + 2 * 5000000 ≤ Bottleneck.rep_wall Bottleneck.sample_report.
Proof.
  apply (simulator_first_sleep_floor Bottleneck.small 2
           Bottleneck.sample_final Bottleneck.sample_report).
  - lia.
  - vm_compute. lia.
  - exists 0, Bottleneck.sample_run. vm_compute. reflexivity.
  - reflexivity.
Defined.

(** X5: in the simulator every worker completes its iterations in ascending
    order: of two iterations of the same worker the one completed later has
    the larger index. *)
Theorem simulator_worker_order (cfg : Bottleneck.config) (T : nat)
    (σ : Bottleneck.state) (a b w i j : nat) :
  Bottleneck.reachable cfg T σ → (a < b)%nat →
  Bottleneck.log σ !! a = Some (w, i) → Bottleneck.log σ !! b = Some (w, j) →
  (i < j)%nat.
Proof.
  intros Hreach%Bottleneck.reachable_Inv2. apply (Bottleneck.inv_order _ _ _ Hreach).
Qed.

Lemma simulator_worker_order_witness :
  Bottleneck.log Bottleneck.sample_final_one = [(0, 0); (0, 1)]%nat ∧ (0 < 1)%nat.
Proof.
  split; [reflexivity|].
  apply (simulator_worker_order Bottleneck.small 1
           Bottleneck.sample_final_one 0 1 0 0 1).
  - exists 0, Bottleneck.sample_run_one. vm_compute. reflexivity.
  - lia.
  - reflexivity.
  - reflexivity.
Defined.

(** X6: no Probe run goes on for ever and none stops short of the end: from
    a reachable state only finitely many steps can follow one another, under
    every interleaving, and a state in which no worker can move is one in
    which every worker has reached the end of the region. *)
Theorem probe_terminates (T : nat) (σ : Warmup.state) :
  Warmup.reachable T σ →
  Acc Warmup.successor σ ∧
  ((∀ w, Warmup.worker_step w σ = None) → Warmup.finished σ).
Proof.
  intros HI%Warmup.probe_reachable_Inv. split.
  - apply Warmup.successor_wf.
  - by apply (Warmup.probe_stuck_finished T).
Qed.

Lemma probe_terminates_witness : Acc Warmup.successor (Warmup.init 2).
Proof.
  apply (probe_terminates 2 (Warmup.init 2)). by exists [].
Defined.

(** X7: no run of the simulator goes on for ever: however time passes in
    between, only finitely many moves of [main] and of the workers can
    follow one another from a reachable state, under every interleaving. *)
Theorem simulator_terminates (cfg : Bottleneck.config) (T : nat)
    (σ : Bottleneck.state) :
  Bottleneck.reachable cfg T σ → Acc (Bottleneck.advance cfg T) σ.
Proof.
  intros HI%Bottleneck.reachable_Inv. by apply Bottleneck.advance_Acc.
Qed.

Lemma simulator_terminates_witness :
  Acc (Bottleneck.advance Bottleneck.small 2) Bottleneck.sample_contended.
Proof.
  apply (simulator_terminates Bottleneck.small 2 Bottleneck.sample_contended).
  exists 0, (take 12 Bottleneck.sample_run). vm_compute. reflexivity.
Defined.

(** X8: for every [n] that fits an [int] the loops of [serial_work] and of
    [parallel_work] only run their body at indices [0 <= i < n]: the
    increment of the counter never overflows, and the index is converted to
    [double] from its own value. *)
Theorem loop_counters_in_range (T : nat) (order : list nat) (n : Z) :
  n ≤ Amdahl.INT_MAX → (1 ≤ T)%nat → order ≡ₚ seq 0 T →
  ∃ ts tp, Amdahl.serial_work_trace n = Some ts ∧
           Amdahl.parallel_work_trace T order n = Some tp ∧
           Forall (Amdahl.index_ok n) ts ∧ Forall (Amdahl.index_ok n) tp.
Proof.
  intros Hn HT Hperm.
  destruct (Amdahl.parallel_work_trace_perm T order n HT Hperm)
    as (tp & Htp & Hp).
  exists (Amdahl.ascending 0 n), tp.
  split_and!; [apply Amdahl.serial_work_trace_ascending|done| |].
  - by apply Amdahl.ascending_index_ok.
  - rewrite Hp. by apply Amdahl.ascending_index_ok.
Qed.

Lemma loop_counters_in_range_witness :
  Amdahl.serial_work_trace 3 = Some [0; 1; 2] ∧
  Amdahl.parallel_work_trace 2 [1; 0]%nat 3 = Some [2; 0; 1] ∧
  Amdahl.index_ok 3 2.
Proof.
  destruct (loop_counters_in_range 2 [1; 0]%nat 3)
    as (ts & tp & Hts & Htp & Hs & Hp).
  - vm_compute. discriminate.
  - lia.
  - apply perm_swap.
  - vm_compute in Hts, Htp. simplify_eq.
    split_and!; [reflexivity|reflexivity|].
    by apply Forall_cons in Hp as [? _].
Defined.

(** X10: at every moment of a Probe run the lines written so far are
    pairwise different, and each of them is the line of a worker of the
    team that has left its [printf] behind: no line is written twice and
    none names a worker outside [0 .. T-1]. *)
Theorem probe_partial_output (T : nat) (σ : Warmup.state) (l : string) :
  Warmup.reachable T σ → l ∈ Warmup.out σ →
  NoDup (Warmup.out σ) ∧
  ∃ w, (w < T)%nat ∧ Warmup.has_printed (Warmup.pcs σ !! w) ∧
       l = Warmup.hello_line (Z.of_nat w) (Z.of_nat T).
Proof.
  intros HI%Warmup.probe_reachable_Inv Hl.
  destruct (Warmup.partial_output T σ HI) as [Hnd Hall]. split; [done|].
  by apply Hall.
Qed.

Lemma probe_partial_output_witness :
  NoDup (Warmup.out Warmup.sample_final).
Proof.
  apply (probe_partial_output 2 Warmup.sample_final (Warmup.hello_line 0 2)).
  - exists Warmup.sample_run. vm_compute. reflexivity.
  - vm_compute. left.
Defined.

(** X11: at every moment of a simulator run, when [k >= 1] iterations have
    been completed at least one parallel sleep and [k] serialized sleeps
    have passed since the timer was started, and a worker about to start
    its iteration [i] has spent both sleeps on each of the iterations of
    its chunk before [i]. *)
Theorem simulator_running_floor (cfg : Bottleneck.config) (T : nat)
    (σ : Bottleneck.state) (τ0 : Z) :
  Bottleneck.reachable cfg T σ → Bottleneck.t0 σ = Some τ0 →
  (Bottleneck.log σ ≠ [] →
   Bottleneck.parallel_ns cfg
     + Bottleneck.serial_ns cfg * Z.of_nat (length (Bottleneck.log σ))
   ≤ Bottleneck.now σ - τ0) ∧
  (∀ w i, Bottleneck.pcs σ !! w = Some (Bottleneck.LoopHead i) →
          (Z.of_nat i - Z.of_nat (Schedule.chunk_lo (Bottleneck.iters cfg) T w))
            * (Bottleneck.parallel_ns cfg + Bottleneck.serial_ns cfg)
          ≤ Bottleneck.now σ - τ0).
Proof.
  intros HI2%Bottleneck.reachable_Inv2 Ht0. split.
  - intros Hlog. pose proof (Bottleneck.inv_first _ _ _ HI2 τ0 Ht0 Hlog). lia.
  - intros w i Hw.
    pose proof (Bottleneck.inv_clock _ _ _ HI2 τ0 w _ Ht0 Hw) as Hc.
    simpl in Hc. unfold Bottleneck.behind, Bottleneck.span in Hc. lia.
Qed.

Lemma simulator_running_floor_witness :
  2000000 + 5000000 * 2 ≤ Bottleneck.now Bottleneck.sample_final - 0.
Proof.
  destruct (simulator_running_floor Bottleneck.small 2
              Bottleneck.sample_final 0) as [Hlog _].
  - exists 0, Bottleneck.sample_run. vm_compute. reflexivity.
  - reflexivity.
  - apply Hlog. discriminate.
Defined.

(** X12: the report of the simulator is final: once it is written neither
    [main] nor a worker takes another step, only time passes, and the
    report and the completed iterations stay as they are. *)
Theorem simulator_report_final (cfg : Bottleneck.config) (T : nat)
    (σ σ' : Bottleneck.state) (r : Bottleneck.report)
    (es : list Bottleneck.event) :
  Bottleneck.reachable cfg T σ → Bottleneck.out σ = Some r →
  Bottleneck.run cfg T es σ = Some σ' →
  Bottleneck.moves es = 0%nat ∧ Bottleneck.out σ' = Some r ∧
  Bottleneck.log σ' = Bottleneck.log σ ∧ Bottleneck.pcs σ' = Bottleneck.pcs σ.
Proof.
  intros HI%Bottleneck.reachable_Inv Hr Hrun.
  pose proof (Bottleneck.inv_out _ _ _ HI) as Hout. rewrite Hr in Hout.
  destruct Hout as [Hm _].
  pose proof (Bottleneck.run_moves cfg T _ _ _ HI Hrun) as Hsteps.
  unfold Bottleneck.total_measure in Hsteps at 1. rewrite Hm in Hsteps.
  simpl in Hsteps. rewrite Bottleneck.finished_measure in Hsteps.
  2: { apply (Bottleneck.inv_joined _ _ _ HI). rewrite Hm. simpl. lia. }
  assert (Bottleneck.moves es = 0%nat) as Hmoves by lia.
  destruct (Bottleneck.run_ticks cfg T _ _ _ Hmoves Hrun)
    as (_ & Hpcs & Hlog & Ho & _).
  split_and!; [done|congruence|done|done].
Qed.

Lemma simulator_report_final_witness :
  Bottleneck.moves [Bottleneck.Tick 5] = 0%nat ∧
  Bottleneck.out (Bottleneck.set_now 12000005 Bottleneck.sample_final)
    = Some Bottleneck.sample_report.
Proof.
  destruct (simulator_report_final Bottleneck.small 2 Bottleneck.sample_final
              (Bottleneck.set_now 12000005 Bottleneck.sample_final)
              Bottleneck.sample_report [Bottleneck.Tick 5])
    as (Hmoves & Hout & _).
  - exists 0, Bottleneck.sample_run. vm_compute. reflexivity.
  - reflexivity.
  - vm_compute. reflexivity.
  - split; [exact Hmoves|exact Hout].
Defined.

(** X13: when every worker of the simulator has left the loop the lock of
    the critical section is free: each worker that took it has given it
    back. *)
Theorem simulator_lock_released (cfg : Bottleneck.config) (T : nat)
    (σ : Bottleneck.state) :
  Bottleneck.reachable cfg T σ → Bottleneck.finished σ →
  Bottleneck.lock σ = None.
Proof.
  intros HI%Bottleneck.reachable_Inv. by apply (Bottleneck.finished_unlocked cfg T).
Qed.

Lemma simulator_lock_released_witness :
  Bottleneck.lock Bottleneck.sample_final = None.
Proof.
  apply (simulator_lock_released Bottleneck.small 2 Bottleneck.sample_final).
  - exists 0, Bottleneck.sample_run. vm_compute. reflexivity.
  - vm_compute. repeat constructor.
Defined.

(** X14: when every worker of the Probe has reached the end of the region
    the lock of the critical section around [printf] is free. *)
Theorem probe_lock_released (T : nat) (σ : Warmup.state) :
  Warmup.reachable T σ → Warmup.finished σ → Warmup.lock σ = None.
Proof.
  intros HI%Warmup.probe_reachable_Inv. by apply (Warmup.probe_finished_unlocked T).
Qed.

Lemma probe_lock_released_witness :
  Warmup.lock Warmup.sample_final = None.
Proof.
  apply (probe_lock_released 2 Warmup.sample_final).
  - exists Warmup.sample_run. vm_compute. reflexivity.
  - vm_compute. repeat constructor.
Defined.


